(** * Educompanion: the text-to-animation core

    A shallow embedding of [text_to_animation/intelligent_animator.py]:
    the content classifier ([ContentAnalyzer.analyze_content]), the
    data-structure operation extractor
    ([ContentAnalyzer._extract_data_structure_operations]) and the state
    updates performed by the [UniversalAnimationEngine._animate_*]
    simulators.  Drawing and video encoding are not modelled: only the
    structure states, the highlighted element and the step messages that the
    frames display.

    Strings are Rocq [string]s of 8-bit characters; the model is exact for
    ASCII text, which is what the patterns of the source recognise. *)

From Stdlib Require Import ZArith List String Ascii Bool Lia Sorted Permutation.
Import ListNotations.
Open Scope Z_scope.

(* ------------------------------------------------------------------ *)
(** ** CPython's [hash] of a [str]

    [hash(str(key))] on a string whose characters are all below 256 hashes
    the one-byte-per-character buffer with SipHash-1-3 (Python 3.11+,
    [Python/pyhash.c]) keyed with the per-process hash secret.  The secret
    is zero under [PYTHONHASHSEED=0], is filled by a linear congruential
    generator under [PYTHONHASHSEED=n] for [n > 0], and comes from the OS
    random source when the variable is unset (the default). *)

Module PyHash.

Definition w64 (x : Z) : Z := Z.land x (Z.ones 64).

Definition rotl (x : Z) (b : Z) : Z :=
  w64 (Z.lor (Z.shiftl x b) (Z.shiftr x (64 - b))).

Record sip_state := Sip { v0 : Z; v1 : Z; v2 : Z; v3 : Z }.

(** [HALF_ROUND(a,b,c,d,s,t)] *)
Definition half_round (a b c d s t : Z) : Z * Z * Z * Z :=
  let a := w64 (a + b) in
  let c := w64 (c + d) in
  let b := Z.lxor (rotl b s) a in
  let d := Z.lxor (rotl d t) c in
  let a := rotl a 32 in
  (a, b, c, d).

(** [SINGLE_ROUND(v0,v1,v2,v3)] *)
Definition single_round (st : sip_state) : sip_state :=
  let '(a0, a1, a2, a3) := half_round (v0 st) (v1 st) (v2 st) (v3 st) 13 16 in
  let '(b2, b1, b0, b3) := half_round a2 a1 a0 a3 17 21 in
  Sip b0 b1 b2 b3.

(** little-endian value of a list of bytes *)
Fixpoint le_bytes (bs : list Z) : Z :=
  match bs with
  | [] => 0
  | b :: rest => Z.lor b (Z.shiftl (le_bytes rest) 8)
  end.

(** the 8-byte blocks of the input; [fuel] bounds the number of blocks *)
Fixpoint blocks (fuel : nat) (bs : list Z) : list Z * list Z :=
  match fuel with
  | O => ([], bs)
  | S f =>
      if (8 <=? List.length bs)%nat then
        let '(bl, tl) := blocks f (skipn 8 bs) in
        (le_bytes (firstn 8 bs) :: bl, tl)
      else ([], bs)
  end.

Definition siphash13 (k0 k1 : Z) (src : list Z) : Z :=
  let b0 := w64 (Z.shiftl (Z.of_nat (List.length src)) 56) in
  let st0 := Sip (Z.lxor k0 0x736f6d6570736575) (Z.lxor k1 0x646f72616e646f6d)
                 (Z.lxor k0 0x6c7967656e657261) (Z.lxor k1 0x7465646279746573) in
  let '(ms, tail) := blocks (List.length src) src in
  let st1 := fold_left (fun st mi =>
                let st := single_round (Sip (v0 st) (v1 st) (v2 st) (Z.lxor (v3 st) mi)) in
                Sip (Z.lxor (v0 st) mi) (v1 st) (v2 st) (v3 st)) ms st0 in
  let b := Z.lor b0 (le_bytes tail) in
  let st2 := single_round (Sip (v0 st1) (v1 st1) (v2 st1) (Z.lxor (v3 st1) b)) in
  let st3 := Sip (Z.lxor (v0 st2) b) (v1 st2) (Z.lxor (v2 st2) 255) (v3 st2) in
  let st4 := single_round (single_round (single_round st3)) in
  Z.lxor (Z.lxor (v0 st4) (v1 st4)) (Z.lxor (v2 st4) (v3 st4)).

(** [_Py_HashSecret.siphash]: the two 64-bit key words *)
Record hash_secret := HashSecret { k0 : Z; k1 : Z }.

(** [lcg_urandom(x0, buffer, size)] with a 32-bit [unsigned int] state *)
Fixpoint lcg_bytes (x : Z) (size : nat) : list Z :=
  match size with
  | O => []
  | S n =>
      let x := (x * 214013 + 2531011) mod 2 ^ 32 in
      Z.land (Z.shiftr x 16) 255 :: lcg_bytes x n
  end.

(** the secret installed by [PYTHONHASHSEED=seed] *)
Definition secret_of_seed (seed : Z) : hash_secret :=
  if seed =? 0 then HashSecret 0 0
  else
    let buf := lcg_bytes seed 24 in
    HashSecret (le_bytes (firstn 8 buf)) (le_bytes (firstn 8 (skipn 8 buf))).

Fixpoint str_bytes (s : string) : list Z :=
  match s with
  | EmptyString => []
  | String c rest => Z.of_nat (nat_of_ascii c) :: str_bytes rest
  end.

(** [unicode_hash] through [_Py_HashBytes]: empty strings hash to 0, the
    unsigned digest is read as a signed [Py_hash_t], and -1 becomes -2 *)
Definition str_hash (sec : hash_secret) (s : string) : Z :=
  match str_bytes s with
  | [] => 0
  | bs =>
      let u := siphash13 (k0 sec) (k1 sec) bs in
      let x := if u <? 2 ^ 63 then u else u - 2 ^ 64 in
      if x =? -1 then -2 else x
  end.

End PyHash.

Import PyHash.

(* ------------------------------------------------------------------ *)
(** ** Operations, as the extractor emits them (dictionaries keyed by
    ['type']) *)

Inductive operation :=
| stack_push (value : string)
| stack_pop
| queue_enqueue (value : string)
| queue_dequeue
| tree_insert (value : string)
| list_insert (value : string)
| list_append (value : string)
| list_delete
| graph_add_node (node : string)
| graph_add_edge (from_node to_node : string)
| graph_dfs (node : string)
| graph_bfs (node : string)
| hash_insert (key : string)
| hash_search (key : string)
| hash_delete (key : string)
| array_insert (value index : string)
| array_append (value : string)
| array_delete (index : string).

(* ------------------------------------------------------------------ *)
(** ** [_animate_hash_table] *)

Module HashTable.

Definition table_size : Z := 7.

(** [hash_function(key) = hash(str(key)) % table_size]; keys are strings *)
Definition hash_function (sec : hash_secret) (key : string) : Z :=
  str_hash sec key mod table_size.

Record hstate := HState { hash_table : list (list string); collision_count : Z }.

Definition initial : hstate :=
  HState (repeat [] (Z.to_nat table_size)) 0.

Definition chain (t : list (list string)) (index : Z) : list string :=
  nth (Z.to_nat index) t [].

Fixpoint set_nth {A} (n : nat) (x : A) (l : list A) : list A :=
  match l, n with
  | [], _ => []
  | _ :: tl, O => x :: tl
  | y :: tl, S m => y :: set_nth m x tl
  end.

Definition mem (key : string) (l : list string) : bool :=
  existsb (String.eqb key) l.

(** [list.remove]: drop the first occurrence *)
Fixpoint remove_first (key : string) (l : list string) : list string :=
  match l with
  | [] => []
  | y :: tl => if String.eqb key y then tl else y :: remove_first key tl
  end.

(** one iteration of the operation loop: the new state and the bucket
    highlighted in the result frame *)
Definition step (sec : hash_secret) (st : hstate) (op : operation)
  : hstate * option Z :=
  let t := hash_table st in
  match op with
  | hash_insert key =>
      let index := hash_function sec key in
      let cc := match chain t index with
                | [] => collision_count st
                | _ :: _ => collision_count st + 1
                end in
      let t' := if mem key (chain t index) then t
                else set_nth (Z.to_nat index) (chain t index ++ [key]) t in
      (HState t' cc, Some index)
  | hash_search key =>
      (st, Some (hash_function sec key))
  | hash_delete key =>
      let index := hash_function sec key in
      let t' := if mem key (chain t index)
                then set_nth (Z.to_nat index) (remove_first key (chain t index)) t
                else t in
      (HState t' (collision_count st), Some index)
  | _ => (st, None)
  end.

(** the snapshots of a run: for each operation, the state after it and the
    highlighted bucket *)
Fixpoint run_from (sec : hash_secret) (st : hstate) (ops : list operation)
  : list (hstate * option Z) :=
  match ops with
  | [] => []
  | op :: rest =>
      let '(st', hl) := step sec st op in
      (st', hl) :: run_from sec st' rest
  end.

Definition run (sec : hash_secret) (ops : list operation) :=
  run_from sec initial ops.

(** the state after the whole sequence *)
Definition final (sec : hash_secret) (ops : list operation) : hstate :=
  fold_left (fun st op => fst (step sec st op)) ops initial.

(** the [hash_search] branch: [found = key in hash_table[index]] *)
Definition found (sec : hash_secret) (st : hstate) (key : string) : bool :=
  mem key (chain (hash_table st) (hash_function sec key)).

End HashTable.


(* ------------------------------------------------------------------ *)
(** ** [_animate_stack] and [_animate_queue]

    The loop body updates a Python list; the frames show the operation and
    the list, and neither loop produces any other message. *)

Module Stack.

(** the top of the stack is the end of the list *)
Definition step (stack : list string) (op : operation) : list string :=
  match op with
  | stack_push value => stack ++ [value]
  | stack_pop => match stack with [] => stack | _ :: _ => removelast stack end
  | _ => stack
  end.

Definition run (ops : list operation) : list string := fold_left step ops [].

End Stack.

Module Queue.

Definition step (queue : list string) (op : operation) : list string :=
  match op with
  | queue_enqueue value => queue ++ [value]
  | queue_dequeue => match queue with [] => queue | _ :: rest => rest end
  | _ => queue
  end.

Definition run (ops : list operation) : list string := fold_left step ops [].

End Queue.

(* ------------------------------------------------------------------ *)
(** ** Python's [int] on the index strings

    The extractor only ever stores [\d+] matches (or ['0']) as indices and
    tree values; [int] of such a string is its decimal value.  Any other
    string is modelled as the [ValueError] that [int] raises, [None]. *)

Definition digit_value (c : ascii) : option Z :=
  let n := Z.of_nat (nat_of_ascii c) in
  if (48 <=? n) && (n <=? 57) then Some (n - 48) else None.

Fixpoint py_int_acc (acc : Z) (s : string) : option Z :=
  match s with
  | EmptyString => Some acc
  | String c rest =>
      match digit_value c with
      | Some d => py_int_acc (10 * acc + d) rest
      | None => None
      end
  end.

Definition py_int (s : string) : option Z :=
  match s with
  | EmptyString => None
  | _ => py_int_acc 0 s
  end.

(* ------------------------------------------------------------------ *)
(** ** [_animate_array] *)

Module Array.

Definition max_size : Z := 10.

Definition len (a : list string) : Z := Z.of_nat (List.length a).

(** [list.insert(index, value)] for [0 <= index <= len] *)
Definition list_insert_at (index : Z) (value : string) (a : list string) :=
  firstn (Z.to_nat index) a ++ value :: skipn (Z.to_nat index) a.

(** [list.pop(index)] for [0 <= index < len] *)
Definition list_pop_at (index : Z) (a : list string) :=
  firstn (Z.to_nat index) a ++ skipn (S (Z.to_nat index)) a.

(** one iteration; [None] is the [ValueError] of [int(...)] *)
Definition step (array : list string) (op : operation) : option (list string) :=
  match op with
  | array_insert value idx =>
      match py_int idx with
      | None => None
      | Some index =>
          if (index <=? len array) && (len array <? max_size)
          then Some (list_insert_at index value array)
          else Some array
      end
  | array_delete idx =>
      match py_int idx with
      | None => None
      | Some index =>
          if (0 <=? index) && (index <? len array)
          then Some (list_pop_at index array)
          else Some array
      end
  | array_append value =>
      if len array <? max_size then Some (array ++ [value]) else Some array
  | _ => Some array
  end.

End Array.

(* ------------------------------------------------------------------ *)
(** ** [_animate_linked_list]

    The list [head -> ... -> tail] as a Rocq list; each successful operation
    shows one step message in its result frame, any other operation redraws
    the list with no message ([draw_linked_list_frame()]). *)

Module LinkedList.

Inductive step_info :=
| inserted_at_head (value : string)   (* "Inserted {value} at head" *)
| deleted_from_head (value : string)  (* "Deleted {deleted_value} from head" *)
| appended_to_tail (value : string).  (* "Appended {value} to tail" *)

Definition step (head : list string) (op : operation)
  : list string * option step_info :=
  match op, head with
  | list_insert value, _ => (value :: head, Some (inserted_at_head value))
  | list_delete, v :: rest => (rest, Some (deleted_from_head v))
  | list_append value, _ => (head ++ [value], Some (appended_to_tail value))
  | _, _ => (head, None)
  end.

End LinkedList.

(* ------------------------------------------------------------------ *)
(** ** [_animate_tree]: [insert_node] and [inorder_traversal]

    Nodes hold the inserted values; [insert_node] compares them with
    [int(value) < int(root.value)], so the model keys the tree by the
    integers. *)

Module Tree.

Inductive tree := Leaf | Node (left : tree) (value : Z) (right : tree).

Fixpoint insert_node (root : tree) (value : Z) : tree :=
  match root with
  | Leaf => Node Leaf value Leaf
  | Node l v r =>
      if value <? v then Node (insert_node l value) v r
      else Node l v (insert_node r value)
  end.

Fixpoint inorder_traversal (t : tree) : list Z :=
  match t with
  | Leaf => []
  | Node l v r => inorder_traversal l ++ [v] ++ inorder_traversal r
  end.

Definition build (values : list Z) : tree := fold_left insert_node values Leaf.

(** the search-tree invariant *)
Fixpoint bst (t : tree) : Prop :=
  match t with
  | Leaf => True
  | Node l v r =>
      bst l /\ bst r /\ Forall (fun y => y < v) (inorder_traversal l)
      /\ Forall (fun y => v <= y) (inorder_traversal r)
  end.

End Tree.

(* ------------------------------------------------------------------ *)
(** ** [_animate_graph]

    [nodes], [adjacency] and [edge_weights] are insertion-ordered Python
    dicts, modelled as association lists; assigning an existing key keeps its
    place. *)

Module Graph.

Fixpoint assoc {V} (k : string) (l : list (string * V)) : option V :=
  match l with
  | [] => None
  | (k', v) :: rest => if String.eqb k k' then Some v else assoc k rest
  end.

Fixpoint assoc_set {V} (k : string) (v : V) (l : list (string * V)) :=
  match l with
  | [] => [(k, v)]
  | (k', v') :: rest =>
      if String.eqb k k' then (k', v) :: rest else (k', v') :: assoc_set k v rest
  end.

Definition has_key {V} (k : string) (l : list (string * V)) : bool :=
  match assoc k l with Some _ => true | None => false end.

Definition mem (x : string) (l : list string) : bool := existsb (String.eqb x) l.

Record gstate := GState {
  nodes : list (string * unit);            (* positions are not modelled *)
  adjacency : list (string * list string);
  edge_weights : list (string * Z);
  visited_order : list string }.

Definition empty : gstate := GState [] [] [] [].

(** [if node not in nodes: nodes[node] = ...; if node not in adjacency:
    adjacency[node] = []] *)
Definition ensure_node (g : gstate) (node : string) : gstate :=
  GState (if has_key node (nodes g) then nodes g else assoc_set node tt (nodes g))
         (if has_key node (adjacency g) then adjacency g
          else assoc_set node [] (adjacency g))
         (edge_weights g) (visited_order g).

Definition adj (g : gstate) (node : string) : list string :=
  match assoc node (adjacency g) with Some l => l | None => [] end.

Definition traverse (g : gstate) (start_node : string) : gstate :=
  if negb (String.eqb start_node EmptyString) && negb (mem start_node (visited_order g)) then
    let vo := visited_order g ++ [start_node] in
    let vo := if has_key start_node (adjacency g)
              then fold_left (fun vo nb => if mem nb vo then vo else vo ++ [nb])
                             (firstn 2 (adj g start_node)) vo
              else vo in
    GState (nodes g) (adjacency g) (edge_weights g) vo
  else g.

(** the operations carry no ['weight'], so [weight = 1] *)
Definition step (g : gstate) (op : operation) : gstate :=
  match op with
  | graph_add_node node =>
      let g := GState (assoc_set node tt (nodes g)) (adjacency g)
                      (edge_weights g) (visited_order g) in
      if has_key node (adjacency g) then g
      else GState (nodes g) (assoc_set node [] (adjacency g))
                  (edge_weights g) (visited_order g)
  | graph_add_edge from_node to_node =>
      let g := ensure_node (ensure_node g from_node) to_node in
      let g := if mem to_node (adj g from_node) then g
               else GState (nodes g)
                      (assoc_set from_node (adj g from_node ++ [to_node]) (adjacency g))
                      (edge_weights g) (visited_order g) in
      GState (nodes g) (adjacency g)
             (assoc_set (from_node ++ "-" ++ to_node) 1 (edge_weights g))
             (visited_order g)
  | graph_dfs node | graph_bfs node => traverse g node
  | _ => g
  end.

End Graph.

(* ------------------------------------------------------------------ *)
(** ** String helpers: [str.lower], [sub in s], [s.count(sub)] *)

Module Str.

Definition lower_char (c : ascii) : ascii :=
  let n := nat_of_ascii c in
  if (65 <=? n)%nat && (n <=? 90)%nat then ascii_of_nat (n + 32) else c.

Fixpoint lower (s : string) : string :=
  match s with
  | EmptyString => EmptyString
  | String c rest => String (lower_char c) (lower rest)
  end.

(** [sub in s] *)
Fixpoint contains (sub s : string) : bool :=
  prefix sub s ||
  match s with
  | EmptyString => false
  | String _ rest => contains sub rest
  end.

(** [s.count(sub)] for a non-empty [sub]: non-overlapping occurrences,
    scanning left to right *)
Fixpoint count_fuel (fuel : nat) (sub s : string) : Z :=
  match fuel with
  | O => 0
  | S f =>
      match s with
      | EmptyString => 0
      | String _ rest =>
          if prefix sub s
          then 1 + count_fuel f sub (substring (String.length sub) (String.length s) s)
          else count_fuel f sub rest
      end
  end.

Definition count (s sub : string) : Z := count_fuel (String.length s) sub s.

Fixpoint of_bytes (bs : list nat) : string :=
  match bs with
  | [] => EmptyString
  | b :: rest => String (ascii_of_nat b) (of_bytes rest)
  end.

End Str.

(* ------------------------------------------------------------------ *)
(** ** [ContentAnalyzer.analyze_content] *)

Module Classifier.
Local Open Scope string_scope.

Inductive content_type :=
| data_structures | algorithms | mathematics | physics | chemistry
| biology | business | general.

Record patterns := Patterns {
  keywords : list string; operations : list string; pats : list string;
  symbols : list string; concepts : list string }.

(** the UTF-8 encodings of the non-ASCII symbols ∫, ∂ and Σ *)
Definition integral_sign := Str.of_bytes [226; 136; 171]%nat.
Definition partial_sign := Str.of_bytes [226; 136; 130]%nat.
Definition sigma_sign := Str.of_bytes [206; 163]%nat.

(** [self.content_patterns], in its insertion order *)
Definition content_patterns : list (content_type * patterns) := [
  (data_structures, Patterns
     ["stack"; "queue"; "array"; "linked list"; "tree"; "graph"; "hash"; "heap"]
     ["push"; "pop"; "enqueue"; "dequeue"; "insert"; "delete"; "search"; "traverse"]
     [] [] []);
  (algorithms, Patterns
     ["algorithm"; "sort"; "search"; "recursion"; "iteration"; "divide"; "conquer"]
     [] ["bubble sort"; "merge sort"; "quick sort"; "binary search"; "linear search"]
     [] []);
  (mathematics, Patterns
     ["equation"; "formula"; "function"; "graph"; "derivative"; "integral"; "matrix"]
     [] [] ["="; "+"; "-"; "*"; "/"; "^"; integral_sign; partial_sign; sigma_sign] []);
  (physics, Patterns
     ["force"; "motion"; "energy"; "wave"; "velocity"; "acceleration"; "mass";
      "kinematics"; "dynamics"; "momentum"]
     [] ["m/s"; Str.of_bytes [109; 47; 115; 194; 178]%nat; "kg"; "N"; "J"; "W"; "Hz"]
     [] ["newton"; "gravity"; "momentum"; "friction"]);
  (chemistry, Patterns
     ["reaction"; "molecule"; "atom"; "bond"; "element"; "compound"; "chemical"; "formula"]
     [] ["H2O"; "CO2"; "NaCl"; "chemical equation"; "pH"; "acid"; "base"]
     [] ["equilibrium"; "catalyst"; "oxidation"; "reduction"]);
  (biology, Patterns
     ["cell"; "dna"; "organism"; "evolution"; "gene"; "protein"; "enzyme"]
     [] ["mitosis"; "meiosis"; "photosynthesis"; "respiration"]
     [] ["nucleus"; "membrane"; "chromosome"; "inheritance"; "adaptation"]);
  (business, Patterns
     ["process"; "workflow"; "strategy"; "analysis"; "diagram"; "flowchart"]
     [] [] [] ["decision"; "approval"; "review"; "implementation"])].

Definition in_list (x : string) (l : list string) : bool := existsb (String.eqb x) l.

(** the weight of one keyword hit *)
Definition keyword_weight (ct : content_type) (keyword : string) : Z :=
  match ct with
  | physics =>
      if in_list keyword ["kinematics"; "dynamics"; "momentum"; "velocity"; "acceleration"]
      then 5 else 2
  | chemistry =>
      if in_list keyword ["reaction"; "molecule"; "chemical"; "formula"] then 5 else 2
  | biology =>
      if in_list keyword ["cell"; "dna"; "organism"; "gene"] then 5 else 2
  | mathematics =>
      if in_list keyword ["equation"; "function"; "derivative"; "integral"] then 5 else 2
  | _ => 2
  end.

Definition sum (f : string -> Z) (l : list string) : Z :=
  fold_left (fun acc x => acc + f x) l 0.

Definition score (text : string) (ct : content_type) (p : patterns) : Z :=
  let text_lower := Str.lower text in
  sum (fun k => Str.count text_lower (Str.lower k) * keyword_weight ct k) (keywords p)
  + sum (fun q => Str.count text_lower (Str.lower q) * 3) (List.app (operations p) (pats p))
  + sum (fun s => Str.count text s * 1) (symbols p)
  + sum (fun c => Str.count text_lower (Str.lower c) * 2) (concepts p).

Definition content_scores (text : string) : list (content_type * Z) :=
  map (fun '(ct, p) => (ct, score text ct p)) content_patterns.

(** [max(d, key=d.get)]: the first key with the largest value *)
Fixpoint argmax (best : content_type * Z) (l : list (content_type * Z)) : content_type :=
  match l with
  | [] => fst best
  | (ct, s) :: rest => if (snd best <? s)%Z then argmax (ct, s) rest else argmax best rest
  end.

Definition content_type_eqb (a b : content_type) : bool :=
  match a, b with
  | data_structures, data_structures | algorithms, algorithms
  | mathematics, mathematics | physics, physics | chemistry, chemistry
  | biology, biology | business, business | general, general => true
  | _, _ => false
  end.

Fixpoint lookup (ct : content_type) (l : list (content_type * Z)) : option Z :=
  match l with
  | [] => None
  | (ct', s) :: rest => if content_type_eqb ct ct' then Some s else lookup ct rest
  end.

Record analysis := Analysis {
  type : content_type; top_score : Z; all_scores : list (content_type * Z) }.

(** [analyze_content]; [None] is the [KeyError] raised by
    [content_scores[primary_type]].  The ['elements'] entry is computed by
    the extractors and is left out here. *)
Definition analyze_content (text : string) : option analysis :=
  let scores := content_scores text in
  let primary_type :=
    if existsb (fun '(_, s) => negb (s =? 0)%Z) scores
    then match scores with
         | [] => general
         | first :: rest => argmax first rest
         end
    else general in
  match lookup primary_type scores with
  | Some s => Some (Analysis primary_type s scores)
  | None => None
  end.

End Classifier.

(* ------------------------------------------------------------------ *)
(** ** Python's [re] on the patterns of the extractor

    A backtracking matcher in continuation-passing style: alternatives are
    tried left to right, a greedy repetition tries one more iteration before
    stopping and a lazy one the reverse, which is the search order of
    Python's engine.  Every repetition in the extractor's patterns repeats a
    one-character class, so an iteration always consumes input; the matcher
    requires that progress, which bounds the iterations by the remaining
    input. *)

Module Re.

Inductive regex :=
| REps
| RChar (c : ascii)               (* a literal character *)
| RClass (p : ascii -> bool)      (* a character class, [.] included *)
| RSeq (r1 r2 : regex)
| RAlt (r1 r2 : regex)
| RStar (greedy : bool) (r : regex)
| RGroup (n : nat) (r : regex)    (* capturing group number [n] *)
| RBol                            (* [^] under [re.MULTILINE] *)
| RWordBoundary.                  (* [\b] *)

Record flags := Flags { ignorecase : bool; multiline : bool }.

Definition code (c : ascii) : nat := nat_of_ascii c.
Definition in_range (lo hi : nat) (c : ascii) : bool :=
  (lo <=? code c)%nat && (code c <=? hi)%nat.

Definition is_digit := in_range 48 57.
Definition is_upper := in_range 65 90.
Definition is_lower := in_range 97 122.
Definition is_alpha c := is_upper c || is_lower c.
Definition is_alnum c := is_alpha c || is_digit c.
(** [\w] *)
Definition is_word c := is_alnum c || (code c =? 95)%nat.
(** [\s]: [ \t\n\v\f\r], the separators [\x1c-\x1f] and the space *)
Definition is_space c := in_range 9 13 c || in_range 28 32 c.
(** [.] without [re.DOTALL] *)
Definition not_newline c := negb (code c =? 10)%nat.

Definition caps := list (nat * (nat * nat)).

Fixpoint get_cap (n : nat) (cs : caps) : option (nat * nat) :=
  match cs with
  | [] => None
  | (m, span) :: rest => if (m =? n)%nat then Some span else get_cap n rest
  end.

Definition orelse {A} (x : option A) (y : unit -> option A) : option A :=
  match x with Some a => Some a | None => y tt end.

Section Matcher.

Variable fl : flags.
Variable text : string.

Definition char_at (i : nat) : option ascii := String.get i text.

Definition char_eq (c d : ascii) : bool :=
  if ignorecase fl then Ascii.eqb (Str.lower_char c) (Str.lower_char d)
  else Ascii.eqb c d.

Definition word_at (i : nat) : bool :=
  match char_at i with Some c => is_word c | None => false end.

(** [m r i cs k]: match [r] at position [i] with the captures [cs], then
    continue with [k] at the end position; the first success wins *)
Fixpoint m {R} (r : regex) (i : nat) (cs : caps)
         (k : nat -> caps -> option R) {struct r} : option R :=
  match r with
  | REps => k i cs
  | RChar c =>
      match char_at i with
      | Some d => if char_eq c d then k (S i) cs else None
      | None => None
      end
  | RClass p =>
      match char_at i with
      | Some d => if p d then k (S i) cs else None
      | None => None
      end
  | RSeq r1 r2 => m r1 i cs (fun j cs' => m r2 j cs' k)
  | RAlt r1 r2 => orelse (m r1 i cs k) (fun _ => m r2 i cs k)
  | RStar greedy r1 =>
      (fix loop (budget : nat) (i : nat) (cs : caps) {struct budget} : option R :=
         match budget with
         | O => None
         | S b =>
             let more := fun (_ : unit) =>
               m r1 i cs (fun j cs' => if (i <? j)%nat then loop b j cs' else None) in
             if greedy then orelse (more tt) (fun _ => k i cs)
             else orelse (k i cs) more
         end) (S (String.length text - i)) i cs
  | RGroup n r1 => m r1 i cs (fun j cs' => k j ((n, (i, j)) :: cs'))
  | RBol =>
      if (i =? 0)%nat then k i cs
      else match char_at (pred i) with
           | Some c => if (code c =? 10)%nat then k i cs else None
           | None => None
           end
  | RWordBoundary => if xorb (word_at (pred i) && negb (i =? 0)%nat) (word_at i)
                     then k i cs else None
  end.

(** a match starting at [start]: its end and captures *)
Definition match_at (r : regex) (start : nat) : option (nat * caps) :=
  m r start [] (fun j cs => Some (j, cs)).

(** the leftmost match at or after [pos] *)
Fixpoint search_from (budget : nat) (r : regex) (pos : nat)
  : option (nat * nat * caps) :=
  match budget with
  | O => None
  | S b =>
      match match_at r pos with
      | Some (e, cs) => Some (pos, e, cs)
      | None => search_from b r (S pos)
      end
  end.

Definition span_text (sp : nat * nat) : string :=
  substring (fst sp) (snd sp - fst sp) text.

(** what [findall] reports for one match of a pattern with [ngroups]
    groups: the whole match, or the groups ([''] for a group that did not
    take part) *)
Definition groups (ngroups : nat) (s e : nat) (cs : caps) : list string :=
  match ngroups with
  | O => [span_text (s, e)]
  | _ => map (fun n => match get_cap n cs with
                       | Some sp => span_text sp
                       | None => EmptyString
                       end) (seq 1 ngroups)
  end.

Fixpoint findall_from (budget : nat) (r : regex) (ngroups : nat) (pos : nat)
  : list (list string) :=
  match budget with
  | O => []
  | S b =>
      match search_from (S (String.length text - pos)) r pos with
      | None => []
      | Some (s, e, cs) =>
          groups ngroups s e cs
          :: findall_from b r ngroups (if (s <? e)%nat then e else S e)
      end
  end.

End Matcher.

Record pattern := Pattern { re : regex; ngroups : nat }.

(** [re.findall(pattern, text, flags)] *)
Definition findall (p : pattern) (text : string) (fl : flags) : list (list string) :=
  findall_from fl text (S (S (String.length text))) (re p) (ngroups p) 0.

(** [re.search(pattern, text, flags)]: the groups of the first match *)
Definition search (p : pattern) (text : string) (fl : flags) : option (list string) :=
  match search_from fl text (S (String.length text)) (re p) 0 with
  | Some (s, e, cs) => Some (groups text (ngroups p) s e cs)
  | None => None
  end.

(** pattern syntax *)
Fixpoint lit (s : string) : regex :=
  match s with
  | EmptyString => REps
  | String c EmptyString => RChar c
  | String c rest => RSeq (RChar c) (lit rest)
  end.

Fixpoint seqs (rs : list regex) : regex :=
  match rs with
  | [] => REps
  | [r] => r
  | r :: rest => RSeq r (seqs rest)
  end.

Definition star r := RStar true r.
Definition lazy_star r := RStar false r.
Definition plus r := RSeq r (RStar true r).
Definition opt r := RAlt r REps.

Definition ws := RClass is_space.
Definition digit := RClass is_digit.
Definition word := RClass is_word.
Definition any := RClass not_newline.
Definition ch (n : nat) := RChar (ascii_of_nat n).
(** the class of the double and the single quote *)
Definition quote := RClass (fun c => (code c =? 34)%nat || (code c =? 39)%nat).

End Re.

(* ------------------------------------------------------------------ *)
(** ** [ContentAnalyzer._extract_data_structure_operations] *)

Module Extract.
Import Re.
Local Open Scope string_scope.
Local Open Scope list_scope.

Definition IGNORECASE := Flags true false.
Definition MULTILINE_IGNORECASE := Flags true true.
Definition NOFLAGS := Flags false false.

Definition alnum := RClass is_alnum.
Definition g1 r := RGroup 1 r.
Definition pat1 r := Pattern r 1.
Definition pat0 r := Pattern r 0.

(** [\s*\(\s*Q?([A-Za-z0-9]+)Q?\s*\)], where [Q] is the class of the two
    quote characters *)
Definition call_arg :=
  seqs [star ws; lit "("; star ws; opt quote; g1 (plus alnum); opt quote; star ws; lit ")"].
(** [\s*\(\s*\)] *)
Definition empty_call := seqs [star ws; lit "("; star ws; lit ")"].
(** [<verb>\s+([A-Za-z0-9]+)\s+<prep>\s+<noun>] *)
Definition phrase (verb prep noun : string) :=
  seqs [lit verb; plus ws; g1 (plus alnum); plus ws; lit prep; plus ws; lit noun].
(** [<a>\s+<b>] *)
Definition two_words (a b : string) := seqs [lit a; plus ws; lit b].

Definition push_patterns := [
  pat1 (RSeq (lit "push") call_arg);
  pat1 (RSeq (lit ".push") call_arg);
  pat1 (RSeq (lit "stack.append") call_arg);
  pat1 (phrase "add" "to" "stack");
  pat1 (seqs [lit "push"; plus ws; g1 (plus alnum)]);
  pat1 (phrase "insert" "into" "stack")].

Definition pop_patterns := [
  pat0 (RSeq (lit "pop") empty_call);
  pat0 (RSeq (lit ".pop") empty_call);
  pat0 (RSeq (lit "stack.pop") empty_call);
  pat0 (seqs [lit "remove"; plus ws; lit "from"; plus ws; lit "stack"]);
  pat0 (two_words "pop" "element")].

Definition enqueue_patterns := [
  pat1 (RSeq (lit "enqueue") call_arg);
  pat1 (RSeq (lit ".enqueue") call_arg);
  pat1 (RSeq (lit "queue.append") call_arg);
  pat1 (phrase "add" "to" "queue");
  pat1 (seqs [lit "enqueue"; plus ws; g1 (plus alnum)]);
  pat1 (phrase "insert" "into" "queue")].

Definition dequeue_patterns := [
  pat0 (RSeq (lit "dequeue") empty_call);
  pat0 (RSeq (lit ".dequeue") empty_call);
  pat0 (RSeq (lit "queue.popleft") empty_call);
  pat0 (seqs [lit "remove"; plus ws; lit "from"; plus ws; lit "queue"]);
  pat0 (two_words "dequeue" "element")].

(** [<name>\s*\(\s*(\d+)\s*\)] *)
Definition digit_call (name : string) :=
  pat1 (seqs [lit name; star ws; lit "("; star ws; g1 (plus digit); star ws; lit ")"]).
(** [<name>\s*\(?\s*(\w+)\s*\)?] *)
Definition word_call (name : string) :=
  pat1 (seqs [lit name; star ws; opt (lit "("); star ws; g1 (plus word); star ws;
              opt (lit ")")]).

(** [newNode.*?=.*?(\d+)] *)
Definition new_node_pattern :=
  pat1 (seqs [lit "newNode"; lazy_star any; lit "="; lazy_star any; g1 (plus digit)]).
(** [data\s*=\s*(\d+)] *)
Definition data_pattern := pat1 (seqs [lit "data"; star ws; lit "="; star ws; g1 (plus digit)]).
(** [insert\s*\([^,]*,\s*(\d+)\s*\)] *)
Definition insert_root_pattern :=
  pat1 (seqs [lit "insert"; star ws; lit "(";
              star (RClass (fun c => negb (code c =? 44)%nat)); lit ","; star ws;
              g1 (plus digit); star ws; lit ")"]).

(** [add.*node\s*\(?\s*(\w+)\s*\)?] *)
Definition add_node_pattern :=
  pat1 (seqs [lit "add"; star any; lit "node"; star ws; opt (lit "("); star ws;
              g1 (plus word); star ws; opt (lit ")")]).
(** [add.*edge\s*\(?\s*(\w+)\s*,\s*(\w+)\s*\)?] *)
Definition add_edge_pattern :=
  Pattern (seqs [lit "add"; star any; lit "edge"; star ws; opt (lit "("); star ws;
                 g1 (plus word); star ws; lit ","; star ws; RGroup 2 (plus word);
                 star ws; opt (lit ")")]) 2.

(** [insert\s*\(\s*(\d+)\s*,?\s*(\d+)?\s*\)] *)
Definition array_insert_pattern :=
  Pattern (seqs [lit "insert"; star ws; lit "("; star ws; g1 (plus digit); star ws;
                 opt (lit ","); star ws; opt (RGroup 2 (plus digit)); star ws;
                 lit ")"]) 2.
(** [delete\s*\(\s*(\d+)?\s*\)] *)
Definition array_delete_pattern :=
  pat1 (seqs [lit "delete"; star ws; lit "("; star ws; opt (g1 (plus digit)); star ws;
              lit ")"]).

(** [(?:^\d+\.|\-|S)\s*(.+)], where [S] is an escaped star *)
Definition numbered_pattern :=
  pat1 (seqs [RAlt (seqs [RBol; plus digit; lit "."]) (RAlt (lit "-") (lit "*"));
              star ws; g1 (plus any)]).
(** [(?:a|b|...).*?(\d+|[A-Za-z]+)] *)
Fixpoint alts (ws : list string) : regex :=
  match ws with
  | [] => REps
  | [w] => lit w
  | w :: rest => RAlt (lit w) (alts rest)
  end.
Definition verb_value (verbs : list string) :=
  pat1 (seqs [alts verbs; lazy_star any; g1 (RAlt (plus digit) (plus (RClass is_alpha)))]).
(** [\b(\d+|[A-Z])\b] *)
Definition value_pattern :=
  pat1 (seqs [RWordBoundary; g1 (RAlt (plus digit) (RClass is_upper)); RWordBoundary]).

(** the first group of each match *)
Definition findall1 (p : pattern) (text : string) (fl : flags) : list string :=
  map (fun g => hd EmptyString g) (findall p text fl).

Definition findall_many (ps : list pattern) (text : string) : list (list string) :=
  map (fun p => findall1 p text IGNORECASE) ps.

(** [value.strip().strip(...)]: whitespace, then quotes, parentheses,
    brackets and braces, from both ends *)
Definition strip_char (c : ascii) : bool :=
  existsb (fun n => (code c =? n)%nat) [34; 39; 40; 41; 91; 93; 123; 125]%nat.

Fixpoint lstrip (p : ascii -> bool) (s : string) : string :=
  match s with
  | EmptyString => EmptyString
  | String c rest => if p c then lstrip p rest else s
  end.

Fixpoint rev_str (s : string) (acc : string) : string :=
  match s with
  | EmptyString => acc
  | String c rest => rev_str rest (String c acc)
  end.

Definition strip (p : ascii -> bool) (s : string) : string :=
  rev_str (lstrip p (rev_str (lstrip p s) EmptyString)) EmptyString.

Definition clean (v : string) : string := strip strip_char (strip is_space v).

Definition nonempty (s : string) : bool :=
  match s with EmptyString => false | _ => true end.

Definition any_in (words : list string) (s : string) : bool :=
  existsb (fun w => Str.contains w s) words.

(** the branch chosen by the [if]/[elif] chain on [text_lower] *)
Inductive kind := KStack | KQueue | KTree | KList | KGraph | KHash | KArray | KNone.

Definition infer_kind (text_lower : string) : kind :=
  if Str.contains "stack" text_lower then KStack
  else if Str.contains "queue" text_lower then KQueue
  else if any_in ["tree"; "binary tree"; "bst"; "binary search tree"; "node"; "struct node"]
              text_lower then KTree
  else if any_in ["linked list"; "linkedlist"; "list"] text_lower then KList
  else if Str.contains "graph" text_lower then KGraph
  else if any_in ["hash"; "hash table"; "hashtable"] text_lower then KHash
  else if Str.contains "array" text_lower then KArray
  else KNone.

(** the cleaned, non-empty values of the matches of each pattern in turn *)
Definition valued (mk : string -> operation) (ps : list pattern) (text : string) :=
  flat_map (fun vs => flat_map (fun v => let c := clean v in
                                         if nonempty c then [mk c] else []) vs)
           (findall_many ps text).

Definition counted (o : operation) (ps : list pattern) (text : string) :=
  flat_map (fun ms => map (fun _ => o) ms) (findall_many ps text).

Definition stack_branch (text : string) : list operation :=
  valued stack_push push_patterns text ++ counted stack_pop pop_patterns text.

Definition queue_branch (text : string) : list operation :=
  valued queue_enqueue enqueue_patterns text ++ counted queue_dequeue dequeue_patterns text.

Definition tree_seed (text_lower : string) : list operation :=
  if any_in ["50"; "30"; "70"; "20"; "40"; "60"; "80"] text_lower
  then map tree_insert ["50"; "30"; "70"; "20"; "40"; "60"; "80"]
  else map tree_insert ["10"; "5"; "15"; "3"; "7"; "12"; "18"].

Definition tree_branch (text text_lower : string) : list operation :=
  let ops := flat_map (fun p => map tree_insert (findall1 p text IGNORECASE))
               [digit_call "insert"; digit_call "createNode"; new_node_pattern;
                data_pattern; insert_root_pattern] in
  match ops with [] => tree_seed text_lower | _ => ops end.

Definition list_branch (text : string) : list operation :=
  let ops := map list_insert (findall1 (word_call "insert") text IGNORECASE)
             ++ map list_append (findall1 (word_call "append") text IGNORECASE)
             ++ map (fun _ => list_delete)
                    (findall (pat0 (RSeq (lit "delete") empty_call)) text IGNORECASE) in
  match ops with
  | [] => [list_insert "10"; list_append "20"; list_insert "5"; list_delete]
  | _ => ops
  end.

Definition graph_branch (text text_lower : string) : list operation :=
  let ops := map graph_add_node (findall1 add_node_pattern text IGNORECASE)
             ++ map (fun g => graph_add_edge (nth 0 g EmptyString) (nth 1 g EmptyString))
                    (findall add_edge_pattern text IGNORECASE)
             ++ (if Str.contains "dfs" text_lower || Str.contains "depth.*first" text_lower
                 then [graph_dfs "A"]
                 else if Str.contains "bfs" text_lower
                         || Str.contains "breadth.*first" text_lower
                 then [graph_bfs "A"] else []) in
  match ops with
  | [] => [graph_add_node "A"; graph_add_node "B"; graph_add_node "C";
           graph_add_edge "A" "B"; graph_add_edge "B" "C"; graph_dfs "A"]
  | _ => ops
  end.

Definition hash_branch (text : string) : list operation :=
  let ops := map hash_insert (findall1 (word_call "insert") text IGNORECASE)
             ++ map hash_search (findall1 (word_call "search") text IGNORECASE)
             ++ map hash_delete (findall1 (word_call "delete") text IGNORECASE) in
  match ops with
  | [] => [hash_insert "John"; hash_insert "Jane"; hash_search "John";
           hash_insert "Bob"; hash_delete "Jane"]
  | _ => ops
  end.

Definition or_zero (s : string) : string := if nonempty s then s else "0".

Definition array_branch (text : string) : list operation :=
  let ops := map (fun g => array_insert (nth 0 g EmptyString) (or_zero (nth 1 g EmptyString)))
                 (findall array_insert_pattern text IGNORECASE)
             ++ map array_append
                    (findall1 (pat1 (seqs [lit "append"; star ws; lit "("; star ws;
                                           g1 (plus digit); star ws; lit ")"]))
                              text IGNORECASE)
             ++ map (fun i => array_delete (or_zero i))
                    (findall1 array_delete_pattern text IGNORECASE) in
  match ops with
  | [] => [array_append "10"; array_append "20"; array_insert "15" "1"; array_delete "0"]
  | _ => ops
  end.

Definition primary (text : string) : list operation :=
  let text_lower := Str.lower text in
  match infer_kind text_lower with
  | KStack => stack_branch text
  | KQueue => queue_branch text
  | KTree => tree_branch text text_lower
  | KList => list_branch text
  | KGraph => graph_branch text text_lower
  | KHash => hash_branch text
  | KArray => array_branch text
  | KNone => []
  end.

(** the numbered-list fallback *)
Definition numbered_op (text_lower op_text : string) : list operation :=
  let op_lower := Str.lower op_text in
  if Str.contains "stack" text_lower || any_in ["push"; "pop"] op_lower then
    match search (verb_value ["push"; "add"; "insert"]) op_text IGNORECASE with
    | Some g => [stack_push (hd EmptyString g)]
    | None =>
        match search (pat0 (alts ["pop"; "remove"; "delete"])) op_text IGNORECASE with
        | Some _ => [stack_pop]
        | None => []
        end
    end
  else if Str.contains "queue" text_lower || any_in ["enqueue"; "dequeue"] op_lower then
    match search (verb_value ["enqueue"; "add"; "insert"; "put"]) op_text IGNORECASE with
    | Some g => [queue_enqueue (hd EmptyString g)]
    | None =>
        match search (pat0 (alts ["dequeue"; "remove"; "take"])) op_text IGNORECASE with
        | Some _ => [queue_dequeue]
        | None => []
        end
    end
  else [].

Definition numbered_fallback (text : string) : list operation :=
  flat_map (numbered_op (Str.lower text))
           (findall1 numbered_pattern text MULTILINE_IGNORECASE).

(** [list(dict.fromkeys(values))] *)
Fixpoint dedup (seen : list string) (l : list string) : list string :=
  match l with
  | [] => []
  | x :: rest =>
      if existsb (String.eqb x) seen then dedup seen rest
      else x :: dedup (x :: seen) rest
  end.

Definition unique_values (text : string) : list string :=
  dedup [] (findall1 value_pattern text NOFLAGS).

(** [for i, value in enumerate(values[:4]): push(value); if i == 2: pop] *)
Fixpoint with_middle (push : string -> operation) (pop : operation) (i : nat)
         (vs : list string) : list operation :=
  match vs with
  | [] => []
  | v :: rest =>
      (push v :: (if (i =? 2)%nat then [pop] else [])) ++ with_middle push pop (S i) rest
  end.

Definition stack_seed := [stack_push "10"; stack_push "20"; stack_pop; stack_push "30"].
Definition queue_seed := [queue_enqueue "A"; queue_enqueue "B"; queue_dequeue; queue_enqueue "C"].

Definition value_fallback (text : string) : list operation :=
  let text_lower := Str.lower text in
  let stackish := Str.contains "stack" text_lower || any_in ["push"; "pop"; "lifo"] text_lower in
  let queueish := Str.contains "queue" text_lower
                  || any_in ["enqueue"; "dequeue"; "fifo"] text_lower in
  let uv := unique_values text in
  if (2 <=? List.length uv)%nat then
    if stackish then
      let ops := with_middle stack_push stack_pop 0 (firstn 4 uv) in
      if (1 <? List.length ops)%nat then ops ++ [stack_pop] else ops
    else if queueish then
      let ops := with_middle queue_enqueue queue_dequeue 0 (firstn 4 uv) in
      if (1 <? List.length ops)%nat then ops ++ [queue_dequeue] else ops
    else map stack_push (firstn 3 uv) ++ [stack_pop]
  else if stackish then stack_seed
  else if queueish then queue_seed
  else if any_in ["data structure"; "push"; "pop"; "insert"; "delete"] text_lower
  then stack_seed
  else [].

Definition extract_data_structure_operations (text : string) : list operation :=
  match primary text with
  | [] =>
      match numbered_fallback text with
      | [] => value_fallback text
      | ops => ops
      end
  | ops => ops
  end.

End Extract.

(* ------------------------------------------------------------------ *)
(** ** [_extract_algorithm_steps] and [_extract_general_concepts] *)

Module Elements.
Import Re Extract.
Local Open Scope string_scope.
Local Open Scope list_scope.

(** [s.split(sep)] for a one-character separator *)
Fixpoint split (sep : ascii) (s : string) : list string :=
  match s with
  | EmptyString => [EmptyString]
  | String c rest =>
      let parts := split sep rest in
      if Ascii.eqb c sep then EmptyString :: parts
      else match parts with
           | [] => [String c EmptyString]
           | w :: ws => String c w :: ws
           end
  end.

(** [\[([^\]]+)\]] *)
Definition bracket_pattern :=
  pat1 (seqs [lit "["; g1 (plus (RClass (fun c => negb (code c =? 93)%nat))); lit "]"]).

Definition default_array := ["64"; "34"; "25"; "12"; "22"; "11"; "90"].

(** the ['sort_step'] dictionaries as pairs [(array, step)] *)
Definition algorithm_steps (text : string) : list (list string * nat) :=
  if any_in ["sort"; "bubble"; "merge"; "quick"] (Str.lower text) then
    let elements :=
      match findall1 bracket_pattern text NOFLAGS with
      | a :: _ => map (strip is_space) (split "," a)
      | [] => default_array
      end in
    map (fun i => (elements, i)) (seq 0 (List.length elements))
  else [].

(** the ['content'] of each ['text_slide']:
    [[s.strip() for s in text.split('.') if s.strip()]] *)
Definition general_concepts (text : string) : list string :=
  map (strip is_space) (filter (fun s => nonempty (strip is_space s)) (split "." text)).

End Elements.

(* ------------------------------------------------------------------ *)
(** ** [_create_data_structure_animation] and the frame loops

    The dispatcher hands the whole operation list to one animator, chosen
    by the prefixes of the operations' ['type'] fields.  Each animator
    updates its structure and saves numbered frames, whose count goes to
    [_frames_to_video]; a loop is modelled as a fold over the pair (state,
    [frame_count]), with [None] for the [ValueError] of an [int(...)]. *)

Module Animation.
Local Open Scope string_scope.

(** [operation['type']] *)
Definition op_type (op : operation) : string :=
  match op with
  | stack_push _ => "stack_push" | stack_pop => "stack_pop"
  | queue_enqueue _ => "queue_enqueue" | queue_dequeue => "queue_dequeue"
  | tree_insert _ => "tree_insert"
  | list_insert _ => "list_insert" | list_append _ => "list_append"
  | list_delete => "list_delete"
  | graph_add_node _ => "graph_add_node" | graph_add_edge _ _ => "graph_add_edge"
  | graph_dfs _ => "graph_dfs" | graph_bfs _ => "graph_bfs"
  | hash_insert _ => "hash_insert" | hash_search _ => "hash_search"
  | hash_delete _ => "hash_delete"
  | array_insert _ _ => "array_insert" | array_append _ => "array_append"
  | array_delete _ => "array_delete"
  end.

(** [any(op['type'].startswith(p) for op in operations)] *)
Definition any_type (p : string) (ops : list operation) : bool :=
  existsb (fun op => String.prefix p (op_type op)) ops.

Inductive animator :=
| animate_stack | animate_queue | animate_array | animate_tree
| animate_linked_list | animate_graph | animate_hash_table | general_animation.

Definition choose (ops : list operation) : animator :=
  if any_type "stack" ops then animate_stack
  else if any_type "queue" ops then animate_queue
  else if any_type "array" ops then animate_array
  else if any_type "tree" ops then animate_tree
  else if any_type "list" ops then animate_linked_list
  else if any_type "graph" ops then animate_graph
  else if any_type "hash" ops then animate_hash_table
  else general_animation.





(** [_animate_tree]: an initial frame held for 30 more; only [tree_insert]
    draws anything (1 + 45 + 1 + 60 frames, and [int(value)] for the
    highlight); 90 final frames *)
Definition tree_step (acc : option (Tree.tree * nat)) (op : operation)
  : option (Tree.tree * nat) :=
  match acc, op with
  | None, _ => None
  | Some (root, frame_count), tree_insert value =>
      match py_int value with
      | Some v => Some (Tree.insert_node root v, frame_count + 1 + 45 + 1 + 60)%nat
      | None => None
      end
  | Some _, _ => acc
  end.

Definition tree_loop (ops : list operation) : option (Tree.tree * nat) :=
  match fold_left tree_step ops (Some (Tree.Leaf, 1 + 30)%nat) with
  | Some (root, frame_count) => Some (root, frame_count + 90)%nat
  | None => None
  end.

(** [_animate_linked_list], [_animate_graph] and [_animate_hash_table]:
    31 initial frames; per operation 1 + 45 frames, the result frame and 60
    held frames; 90 final frames *)
Definition list_loop (ops : list operation) : list string * nat :=
  let '(head, frame_count) :=
    fold_left (fun '(head, frame_count) op =>
                 (fst (LinkedList.step head op), frame_count + 1 + 45 + 1 + 60)%nat)
              ops ([], 1 + 30)%nat in
  (head, frame_count + 90)%nat.

Definition graph_loop (ops : list operation) : Graph.gstate * nat :=
  let '(g, frame_count) :=
    fold_left (fun '(g, frame_count) op =>
                 (Graph.step g op, frame_count + 1 + 45 + 1 + 60)%nat)
              ops (Graph.empty, 1 + 30)%nat in
  (g, frame_count + 90)%nat.




End Animation.

(* ------------------------------------------------------------------ *)
(** ** [_create_algorithm_animation]: the bubble sort of the first array *)

Module Sorting.






End Sorting.

(* ------------------------------------------------------------------ *)
(** ** Invariants and observations used in the statements below *)

Module Invariants.

(** the integers carried by the [tree_insert] operations, in order *)
Definition tree_values (ops : list operation) : list Z :=
  flat_map (fun op => match op with
                      | tree_insert v => match py_int v with Some z => [z] | None => [] end
                      | _ => []
                      end) ops.

(** seven buckets; every key sits in the bucket of its hash, at most once *)
Definition hash_wf (sec : hash_secret) (st : HashTable.hstate) : Prop :=
  List.length (HashTable.hash_table st) = 7%nat /\
  forall i, (i < 7)%nat ->
    NoDup (nth i (HashTable.hash_table st) []) /\
    Forall (fun k => HashTable.hash_function sec k = Z.of_nat i)
           (nth i (HashTable.hash_table st) []).

(** [nodes] and [adjacency] have the same keys; adjacency lists hold no
    repeated target and only known nodes; no node is visited twice *)
Definition graph_wf (g : Graph.gstate) : Prop :=
  (forall k, Graph.has_key k (Graph.nodes g) = Graph.has_key k (Graph.adjacency g)) /\
  (forall k l, Graph.assoc k (Graph.adjacency g) = Some l ->
     NoDup l /\ Forall (fun t => Graph.has_key t (Graph.nodes g) = true) l) /\
  NoDup (Graph.visited_order g).



(** the animator that [_create_data_structure_animation] picks for the
    operations of each branch of the extractor *)
Definition kind_animator (k : Extract.kind) : Animation.animator :=
  match k with
  | Extract.KStack => Animation.animate_stack
  | Extract.KQueue => Animation.animate_queue
  | Extract.KTree => Animation.animate_tree
  | Extract.KList => Animation.animate_linked_list
  | Extract.KGraph => Animation.animate_graph
  | Extract.KHash => Animation.animate_hash_table
  | Extract.KArray => Animation.animate_array
  | Extract.KNone => Animation.general_animation
  end.

End Invariants.

(* ================================================================== *)
(** * Properties *)

Local Open Scope string_scope.
Local Open Scope list_scope.
Local Open Scope Z_scope.

(** ** The string hash agrees with CPython 3.11

    Reference values printed by [PYTHONHASHSEED=n python3 -c 'print(hash(s))']. *)

Example py_hash_seed0_15 : str_hash (secret_of_seed 0) "15" = -8614640797117685870.
Proof. vm_compute. reflexivity. Qed.
Example py_hash_seed1_15 : str_hash (secret_of_seed 1) "15" = -4897519963469297700.
Proof. vm_compute. reflexivity. Qed.
Example py_hash_seed3_29 : str_hash (secret_of_seed 3) "29" = -4243855715912009035.
Proof. vm_compute. reflexivity. Qed.
Example py_hash_seed0_long : str_hash (secret_of_seed 0) "HelloWorld17" = 8122440480423812671.
Proof. vm_compute. reflexivity. Qed.
Example py_hash_seed0_block : str_hash (secret_of_seed 0) "abcdefgh" = 4574395652268504554.
Proof. vm_compute. reflexivity. Qed.
Example py_hash_seed2_long : str_hash (secret_of_seed 2) "HelloWorld17" = 2905434168945619992.
Proof. vm_compute. reflexivity. Qed.

(** ** Hash table *)

(** C1 (code_bug).  Replaying the one-operation sequence [HashInsert "15"]
    against a fresh table in two interpreter processes gives different
    snapshots: with [PYTHONHASHSEED=1] the key lands in bucket 3, with
    [PYTHONHASHSEED=2] in bucket 6, because [hash_function] uses the salted
    [hash(str(key))] although the frames announce [h(key) = key % 7]. *)
Theorem hash_run_depends_on_process_seed :
  HashTable.run (secret_of_seed 1) [hash_insert "15"]
    = [(HashTable.HState [[]; []; []; ["15"]; []; []; []] 0, Some 3)] /\
  HashTable.run (secret_of_seed 2) [hash_insert "15"]
    = [(HashTable.HState [[]; []; []; []; []; []; ["15"]] 0, Some 6)].
Proof. split; vm_compute; reflexivity. Qed.

(** C2 (code_bug).  With the hash secret of [PYTHONHASHSEED=0], inserting
    the keys 15, 22, 8 and 29 (all congruent to 1 mod 7) into the empty
    table puts them in buckets 6, 6, 1 and 0: bucket 1 holds one key and the
    collision counter is 1, not a chain of four with three collisions. *)
Theorem hash_keys_not_reduced_mod_7 :
  HashTable.hash_function (secret_of_seed 0) "15" = 6 /\
  HashTable.final (secret_of_seed 0)
    [hash_insert "15"; hash_insert "22"; hash_insert "8"; hash_insert "29"]
    = HashTable.HState [["29"]; ["8"]; []; []; []; []; ["15"; "22"]] 1.
Proof. split; vm_compute; reflexivity. Qed.

(** C10.  Inserting a key that is already in its bucket leaves the table as
    it is and still adds one to the collision counter. *)
Theorem hash_reinsert_counts_collision :
  forall sec st key,
    In key (HashTable.chain (HashTable.hash_table st) (HashTable.hash_function sec key)) ->
    HashTable.step sec st (hash_insert key)
    = (HashTable.HState (HashTable.hash_table st) (HashTable.collision_count st + 1),
       Some (HashTable.hash_function sec key)).
Proof.
  intros sec st key Hin. unfold HashTable.step.
  destruct (HashTable.chain (HashTable.hash_table st) (HashTable.hash_function sec key))
    as [|k rest] eqn:Hc; [contradiction|].
  assert (Hm : HashTable.mem key (k :: rest) = true).
  { unfold HashTable.mem. apply existsb_exists. exists key.
    split; [exact Hin | apply String.eqb_refl]. }
  rewrite Hm. reflexivity.
Qed.

Lemma hash_reinsert_counts_collision_witness :
  HashTable.step (secret_of_seed 0)
    (HashTable.HState [[]; []; []; []; []; []; ["15"]] 0) (hash_insert "15")
  = (HashTable.HState [[]; []; []; []; []; []; ["15"]] 1, Some 6).
Proof.
  apply (hash_reinsert_counts_collision (secret_of_seed 0)
           (HashTable.HState [[]; []; []; []; []; []; ["15"]] 0) "15").
  vm_compute. left. reflexivity.
Defined.

(** ** Binary search tree *)

Section TreeOrder.
Import Tree.

Lemma in_inorder_insert t x y :
  In y (inorder_traversal (insert_node t x)) <-> y = x \/ In y (inorder_traversal t).
Proof.
  induction t as [|l IHl v r IHr]; simpl.
  - split; intros [H|H]; try contradiction; left; symmetry; exact H.
  - destruct (x <? v); simpl; rewrite !in_app_iff; simpl;
      [rewrite IHl | rewrite IHr]; tauto.
Qed.

Lemma insert_forall (P : Z -> Prop) t x :
  P x -> Forall P (inorder_traversal t) -> Forall P (inorder_traversal (insert_node t x)).
Proof.
  intros Hx Ht. apply Forall_forall. intros y Hy.
  apply in_inorder_insert in Hy as [-> | Hy]; [exact Hx|].
  rewrite Forall_forall in Ht. auto.
Qed.

Lemma insert_bst t x : bst t -> bst (insert_node t x).
Proof.
  induction t as [|l IHl v r IHr]; simpl.
  - intros _. repeat split; constructor.
  - intros (Hl & Hr & Hlv & Hvr).
    destruct (x <? v) eqn:Hxv; simpl.
    + apply Z.ltb_lt in Hxv. repeat split; auto. apply insert_forall; assumption.
    + apply Z.ltb_ge in Hxv. repeat split; auto. apply insert_forall; assumption.
Qed.

Lemma sorted_app_mid (l r : list Z) v :
  StronglySorted Z.le l -> StronglySorted Z.le r ->
  Forall (fun y => y < v) l -> Forall (fun y => v <= y) r ->
  StronglySorted Z.le (l ++ v :: r).
Proof.
  induction l as [|a l IH]; intros Hl Hr Hlv Hvr; simpl.
  - constructor; assumption.
  - inversion Hl as [|? ? Hl' Hal]; subst. inversion Hlv as [|? ? Hav Hlv']; subst.
    constructor.
    + apply IH; assumption.
    + apply Forall_app. split; [exact Hal|]. constructor; [lia|].
      eapply Forall_impl; [|exact Hvr]. simpl. intros; lia.
Qed.

Lemma bst_inorder_sorted t : bst t -> StronglySorted Z.le (inorder_traversal t).
Proof.
  induction t as [|l IHl v r IHr]; simpl.
  - constructor.
  - intros (Hl & Hr & Hlv & Hvr). apply sorted_app_mid; auto.
Qed.

Lemma build_bst_from values t : bst t -> bst (fold_left insert_node values t).
Proof.
  revert t. induction values as [|x rest IH]; simpl; intros t Ht; auto.
  apply IH, insert_bst, Ht.
Qed.

End TreeOrder.

(** C4.  [insert_node] sends a value equal to the node's value to the
    right; for every insertion sequence the in-order traversal of the
    resulting tree is non-decreasing, and inserting 50, 30, 70, 20, 40 gives
    the in-order sequence 20, 30, 40, 50, 70. *)
Theorem bst_inorder_nondecreasing :
  (forall l v r, Tree.insert_node (Tree.Node l v r) v
                 = Tree.Node l v (Tree.insert_node r v)) /\
  (forall values, Sorted Z.le (Tree.inorder_traversal (Tree.build values))) /\
  Tree.inorder_traversal (Tree.build [50; 30; 70; 20; 40]) = [20; 30; 40; 50; 70].
Proof.
  split; [|split].
  - intros l v r. simpl. rewrite Z.ltb_irrefl. reflexivity.
  - intros values. apply StronglySorted_Sorted, bst_inorder_sorted.
    unfold Tree.build. apply build_bst_from. exact I.
  - reflexivity.
Qed.

(** ** Array *)






(** ** Invalid operations *)


Lemma tree_step_none ops : fold_left Animation.tree_step ops None = None.
Proof. induction ops; simpl; auto. Qed.



(** ** Graph *)

Section GraphFacts.
Import Graph.

Lemma assoc_set_same {V} k (v : V) l : assoc k (assoc_set k v l) = Some v.
Proof.
  induction l as [|[k' v'] rest IH]; simpl.
  - rewrite String.eqb_refl. reflexivity.
  - destruct (String.eqb k k') eqn:E; simpl; rewrite E; auto.
Qed.

Lemma assoc_set_other {V} k k2 (v : V) l :
  k <> k2 -> assoc k (assoc_set k2 v l) = assoc k l.
Proof.
  intros Hne. induction l as [|[k' v'] rest IH]; simpl.
  - apply String.eqb_neq in Hne. rewrite Hne. reflexivity.
  - destruct (String.eqb k2 k') eqn:E; simpl.
    + apply String.eqb_eq in E. subst k'.
      apply String.eqb_neq in Hne. rewrite Hne. reflexivity.
    + destruct (String.eqb k k'); auto.
Qed.

Lemma has_key_set {V} k k2 (v : V) l :
  has_key k l = true \/ k = k2 -> has_key k (assoc_set k2 v l) = true.
Proof.
  unfold has_key. intros [H | ->]; [|rewrite assoc_set_same; reflexivity].
  destruct (String.eqb k k2) eqn:E.
  - apply String.eqb_eq in E. subst. rewrite assoc_set_same. reflexivity.
  - apply String.eqb_neq in E. rewrite assoc_set_other by exact E. exact H.
Qed.

Lemma ensure_nodes k n g :
  has_key k (nodes g) = true \/ k = n -> has_key k (nodes (ensure_node g n)) = true.
Proof.
  intros H. unfold ensure_node; simpl.
  destruct (has_key n (nodes g)) eqn:E; [|apply has_key_set; exact H].
  destruct H as [H | ->]; assumption.
Qed.

Lemma ensure_adjacency k n g :
  has_key k (adjacency g) = true \/ k = n ->
  has_key k (adjacency (ensure_node g n)) = true.
Proof.
  intros H. unfold ensure_node; simpl.
  destruct (has_key n (adjacency g)) eqn:E; [|apply has_key_set; exact H].
  destruct H as [H | ->]; assumption.
Qed.

Lemma ensure_adj g n k : adj (ensure_node g n) k = adj g k.
Proof.
  unfold ensure_node, adj; simpl.
  destruct (has_key n (adjacency g)) eqn:E; [reflexivity|].
  destruct (String.eqb k n) eqn:Ek.
  - apply String.eqb_eq in Ek. subst. rewrite assoc_set_same.
    unfold has_key in E. destruct (assoc n (adjacency g)); [discriminate|reflexivity].
  - apply String.eqb_neq in Ek. rewrite assoc_set_other by exact Ek. reflexivity.
Qed.

Lemma adj_set n k l a w v : adj (GState n (assoc_set k l a) w v) k = l.
Proof. unfold adj; simpl. rewrite assoc_set_same. reflexivity. Qed.

Lemma mem_snoc x l : mem x (l ++ [x]) = true.
Proof.
  unfold mem. apply existsb_exists. exists x. split.
  - apply in_or_app. right. left. reflexivity.
  - apply String.eqb_refl.
Qed.

End GraphFacts.

(** C6 counterexample: adding the edge A -> B twice leaves a single B in
    A's adjacency list. *)
Lemma add_edge_twice_single :
  Graph.adj (Graph.step (Graph.step Graph.empty (graph_add_edge "A" "B"))
                        (graph_add_edge "A" "B")) "A" = ["B"].
Proof. reflexivity. Qed.

(** C6 (as the code does it).  [GraphAddEdge(from,to)] creates any missing
    endpoint, and appends [to] to [from]'s adjacency list only when it is
    not already there; adding the same edge again leaves the adjacency list
    as it was. *)
Theorem add_edge_deduplicates :
  forall g f t,
    let g' := Graph.step g (graph_add_edge f t) in
    Graph.has_key f (Graph.nodes g') = true /\ Graph.has_key t (Graph.nodes g') = true /\
    Graph.has_key f (Graph.adjacency g') = true /\
    Graph.has_key t (Graph.adjacency g') = true /\
    Graph.adj g' f = (if Graph.mem t (Graph.adj g f) then Graph.adj g f
                      else Graph.adj g f ++ [t]) /\
    Graph.adj (Graph.step g' (graph_add_edge f t)) f = Graph.adj g' f.
Proof.
  assert (Hstep : forall g f t,
    Graph.adj (Graph.step g (graph_add_edge f t)) f
    = (if Graph.mem t (Graph.adj g f) then Graph.adj g f else Graph.adj g f ++ [t])).
  { intros g f t. unfold Graph.step. cbv zeta.
    set (g1 := Graph.ensure_node (Graph.ensure_node g f) t).
    assert (Hg1 : Graph.adj g1 f = Graph.adj g f)
      by (subst g1; rewrite !ensure_adj; reflexivity).
    rewrite Hg1.
    destruct (Graph.mem t (Graph.adj g f)).
    - change (Graph.adj g1 f = Graph.adj g f). exact Hg1.
    - apply adj_set. }
  intros g f t g'.
  set (g1 := Graph.ensure_node (Graph.ensure_node g f) t).
  assert (Hn : Graph.nodes g' = Graph.nodes g1)
    by (subst g' g1; unfold Graph.step; cbv zeta; destruct (Graph.mem _ _); reflexivity).
  assert (Ha : Graph.adjacency g'
               = if Graph.mem t (Graph.adj g1 f) then Graph.adjacency g1
                 else Graph.assoc_set f (Graph.adj g1 f ++ [t]) (Graph.adjacency g1))
    by (subst g' g1; unfold Graph.step; cbv zeta; destruct (Graph.mem _ _); reflexivity).
  split; [|split; [|split; [|split; [|split]]]].
  - rewrite Hn. subst g1. apply ensure_nodes. left. apply ensure_nodes. right. reflexivity.
  - rewrite Hn. subst g1. apply ensure_nodes. right. reflexivity.
  - rewrite Ha. destruct (Graph.mem _ _).
    + subst g1. apply ensure_adjacency. left. apply ensure_adjacency. right. reflexivity.
    + apply has_key_set. right. reflexivity.
  - rewrite Ha. destruct (Graph.mem _ _).
    + subst g1. apply ensure_adjacency. right. reflexivity.
    + apply has_key_set. left. subst g1. apply ensure_adjacency. right. reflexivity.
  - apply Hstep.
  - rewrite Hstep. subst g'. rewrite Hstep.
    destruct (Graph.mem t (Graph.adj g f)) eqn:E; [rewrite E; reflexivity|].
    rewrite mem_snoc. reflexivity.
Qed.

(** ** Operation extraction *)

Lemma valued_map mk ps text :
  Extract.valued mk ps text
  = map mk (flat_map (fun vs => flat_map (fun v => let c := Extract.clean v in
                                                   if Extract.nonempty c then [c] else []) vs)
                     (Extract.findall_many ps text)).
Proof.
  unfold Extract.valued.
  induction (Extract.findall_many ps text) as [|vs rest IH]; simpl; [reflexivity|].
  rewrite map_app, IH. f_equal.
  induction vs as [|v vs IHv]; simpl; [reflexivity|].
  destruct (Extract.nonempty (Extract.clean v)); simpl; rewrite IHv; reflexivity.
Qed.

(** C7 counterexample: the text [stack push(10) pop() push(20)] yields
    [Push(10), Push(20), Pop], not the text order [Push(10), Pop, Push(20)]. *)
Lemma extract_not_text_order :
  Extract.extract_data_structure_operations "stack push(10) pop() push(20)"
  = [stack_push "10"; stack_push "20"; stack_pop].
Proof. vm_compute. reflexivity. Qed.

Lemma valued_patterns mk ps text :
  Extract.valued mk ps text
  = map mk (flat_map (fun p => filter Extract.nonempty
                                 (map Extract.clean (Extract.findall1 p text Extract.IGNORECASE)))
                     ps).
Proof.
  rewrite valued_map. f_equal. unfold Extract.findall_many.
  induction ps as [|p ps IH]; simpl; [reflexivity|]. rewrite IH. f_equal.
  induction (Extract.findall1 p text Extract.IGNORECASE) as [|v vs IHv]; simpl; [reflexivity|].
  destruct (Extract.nonempty (Extract.clean v)); simpl; rewrite IHv; reflexivity.
Qed.

Lemma counted_patterns o ps text :
  Extract.counted o ps text
  = repeat o (list_sum (map (fun p => List.length (Extract.findall1 p text Extract.IGNORECASE)) ps)).
Proof.
  unfold Extract.counted, Extract.findall_many.
  induction ps as [|p ps IH]; simpl; [reflexivity|].
  rewrite IH, repeat_app. f_equal.
  induction (Extract.findall1 p text Extract.IGNORECASE) as [|m ms IHm]; simpl; [reflexivity|].
  rewrite IHm. reflexivity.
Qed.

(** C7 (as the code does it).  When the Stack branch recognises some
    operation, the result lists a [Push] of each cleaned, non-empty value
    captured by the push patterns (pattern by pattern, each pattern's
    matches in text order) and then one [Pop] per match of the pop
    patterns: every [Push] comes before every [Pop], whatever their order
    in the text. *)
Theorem stack_ops_grouped :
  forall text,
    Extract.infer_kind (Str.lower text) = Extract.KStack ->
    Extract.primary text <> [] ->
    Extract.extract_data_structure_operations text
    = map stack_push
          (flat_map (fun p => filter Extract.nonempty
                                (map Extract.clean (Extract.findall1 p text Extract.IGNORECASE)))
                    Extract.push_patterns)
      ++ repeat stack_pop
           (list_sum (map (fun p => List.length (Extract.findall1 p text Extract.IGNORECASE))
                          Extract.pop_patterns)).
Proof.
  intros text Hk Hne. unfold Extract.extract_data_structure_operations.
  destruct (Extract.primary text) as [|o os] eqn:E; [contradiction|].
  rewrite <- E. unfold Extract.primary. cbv zeta. rewrite Hk.
  unfold Extract.stack_branch. rewrite valued_patterns, counted_patterns. reflexivity.
Qed.

Lemma stack_ops_grouped_witness :
  Extract.extract_data_structure_operations "stack push(10) pop() push(20)"
  = map stack_push
        (flat_map (fun p => filter Extract.nonempty
                              (map Extract.clean
                                   (Extract.findall1 p "stack push(10) pop() push(20)"
                                                     Extract.IGNORECASE)))
                  Extract.push_patterns)
    ++ repeat stack_pop
         (list_sum (map (fun p => List.length
                                    (Extract.findall1 p "stack push(10) pop() push(20)"
                                                      Extract.IGNORECASE))
                        Extract.pop_patterns)).
Proof.
  apply stack_ops_grouped.
  - vm_compute. reflexivity.
  - vm_compute. discriminate.
Defined.

(** C8 counterexample: the text [heap] is classified as data structures and
    yields no operation at all, and [stack 1 2], also a data-structure text
    on which no stack pattern matches, yields a sequence built from its
    values instead of the Stack seed. *)
Lemma extract_fallback_not_seed :
  option_map Classifier.type (Classifier.analyze_content "heap")
    = Some Classifier.data_structures /\
  Extract.extract_data_structure_operations "heap" = [] /\
  option_map Classifier.type (Classifier.analyze_content "stack 1 2")
    = Some Classifier.data_structures /\
  Extract.primary "stack 1 2" = [] /\
  Extract.extract_data_structure_operations "stack 1 2"
    = [stack_push "1"; stack_push "2"; stack_pop].
Proof. vm_compute. repeat split. Qed.

Lemma with_middle_shape (push : string -> operation) (pop : operation) (vs : list string) :
  (2 <= List.length vs)%nat ->
  (let ops := Extract.with_middle push pop 0 (firstn 4 vs) in
   if (1 <? List.length ops)%nat then ops ++ [pop] else ops)
  = map push (firstn 3 vs) ++ (if (3 <=? List.length vs)%nat then [pop] else [])
    ++ map push (firstn 1 (skipn 3 vs)) ++ [pop].
Proof.
  intros H. destruct vs as [|a [|b [|c [|d r]]]]; simpl in *; try lia; reflexivity.
Qed.

(** C8 (as the code does it).  Suppose neither the keyword branch nor the
    numbered-list fallback recognises an operation.  With fewer than two
    distinct value tokens (whole-word numbers or single capital letters), a
    text mentioning stack, push, pop or lifo yields exactly
    [Push(10), Push(20), Pop, Push(30)]; otherwise one mentioning queue,
    enqueue, dequeue or fifo yields [Enqueue(A), Enqueue(B), Dequeue,
    Enqueue(C)]; otherwise one mentioning data structure, insert or delete
    yields the Stack seed, and any other text the empty list.  With two or
    more distinct value tokens the sequence is built from them: a stack
    text pushes the first three, pops if there were three, pushes the
    fourth if any, and pops; a queue text does the same with enqueue and
    dequeue; any other text pushes the first three and pops once. *)
Theorem stack_seed_fallback :
  forall text,
    Extract.primary text = [] ->
    Extract.numbered_fallback text = [] ->
    let lower := Str.lower text in
    let uv := Extract.unique_values text in
    let stackish := Str.contains "stack" lower || Extract.any_in ["push"; "pop"; "lifo"] lower in
    let queueish :=
      Str.contains "queue" lower || Extract.any_in ["enqueue"; "dequeue"; "fifo"] lower in
    let ops := Extract.extract_data_structure_operations text in
    ((List.length uv < 2)%nat ->
       (stackish = true ->
          ops = [stack_push "10"; stack_push "20"; stack_pop; stack_push "30"]) /\
       (stackish = false -> queueish = true ->
          ops = [queue_enqueue "A"; queue_enqueue "B"; queue_dequeue; queue_enqueue "C"]) /\
       (stackish = false -> queueish = false ->
          Extract.any_in ["data structure"; "insert"; "delete"] lower = true ->
          ops = [stack_push "10"; stack_push "20"; stack_pop; stack_push "30"]) /\
       (stackish = false -> queueish = false ->
          Extract.any_in ["data structure"; "insert"; "delete"] lower = false ->
          ops = [])) /\
    ((2 <= List.length uv)%nat ->
       (stackish = true ->
          ops = map stack_push (firstn 3 uv)
                ++ (if (3 <=? List.length uv)%nat then [stack_pop] else [])
                ++ map stack_push (firstn 1 (skipn 3 uv)) ++ [stack_pop]) /\
       (stackish = false -> queueish = true ->
          ops = map queue_enqueue (firstn 3 uv)
                ++ (if (3 <=? List.length uv)%nat then [queue_dequeue] else [])
                ++ map queue_enqueue (firstn 1 (skipn 3 uv)) ++ [queue_dequeue]) /\
       (stackish = false -> queueish = false ->
          ops = map stack_push (firstn 3 uv) ++ [stack_pop])).
Proof.
  intros text Hp Hn lower uv stackish queueish ops.
  subst ops. unfold Extract.extract_data_structure_operations. rewrite Hp, Hn.
  unfold Extract.value_fallback. fold lower. fold uv. fold stackish queueish.
  assert (Hdi : stackish = false ->
                Extract.any_in ["data structure"; "push"; "pop"; "insert"; "delete"] lower
                = Extract.any_in ["data structure"; "insert"; "delete"] lower).
  { intros Hs. subst stackish. apply orb_false_iff in Hs as [_ Hs].
    unfold Extract.any_in in *. simpl in *.
    apply orb_false_iff in Hs as [Hpu Hs]. apply orb_false_iff in Hs as [Hpo _].
    rewrite Hpu, Hpo. reflexivity. }
  split.
  - intros Hu. apply Nat.leb_gt in Hu. rewrite Hu.
    split; [intros Hs; rewrite Hs; reflexivity|].
    split; [intros Hs Hq; rewrite Hs, Hq; reflexivity|].
    split; intros Hs Hq Hd; rewrite Hs, Hq, (Hdi Hs), Hd; reflexivity.
  - intros Hu. pose proof Hu as Hu'. apply Nat.leb_le in Hu'. rewrite Hu'.
    split; [intros Hs; rewrite Hs; apply with_middle_shape, Hu|].
    split; [intros Hs Hq; rewrite Hs, Hq; apply with_middle_shape, Hu|].
    intros Hs Hq. rewrite Hs, Hq. reflexivity.
Qed.

Lemma stack_seed_fallback_witness :
  Extract.extract_data_structure_operations "heap 1 2"
  = [stack_push "1"; stack_push "2"; stack_pop].
Proof.
  destruct (stack_seed_fallback "heap 1 2") as [_ H2];
    [vm_compute; reflexivity | vm_compute; reflexivity |].
  rewrite (proj2 (proj2 (H2 ltac:(vm_compute; lia)))); vm_compute; reflexivity.
Defined.

(** ** Classification *)

(** C9 (code_bug).  On [hello] every category scores zero, [primary_type]
    is ['general'], and [content_scores['general']] raises [KeyError]
    because ['general'] is never scored: [analyze_content] fails instead of
    returning General with all-zero scores. *)
Theorem analyze_all_zero_raises :
  map snd (Classifier.content_scores "hello") = [0; 0; 0; 0; 0; 0; 0] /\
  Classifier.analyze_content "hello" = None.
Proof. split; vm_compute; reflexivity. Qed.

(* ================================================================== *)
(** * Further properties of the animators *)

(** ** Stack, queue and linked list *)

Lemma stack_pushes s vs :
  fold_left Stack.step (map stack_push vs) s = s ++ vs.
Proof.
  revert s. induction vs as [|v vs IH]; intros s; simpl.
  - rewrite app_nil_r. reflexivity.
  - rewrite IH, <- app_assoc. reflexivity.
Qed.

Lemma stack_pops s k :
  fold_left Stack.step (repeat stack_pop k) s = firstn (List.length s - k) s.
Proof.
  revert s. induction k as [|k IH]; intros s; simpl.
  - rewrite Nat.sub_0_r, firstn_all. reflexivity.
  - rewrite IH. destruct s as [|x s']; [reflexivity|].
    change (Stack.step (x :: s') stack_pop) with (removelast (x :: s')).
    rewrite removelast_firstn_len, length_firstn, firstn_firstn. simpl.
    f_equal. lia.
Qed.

(** X1.  The stack is last-in first-out: a push followed by a pop gives the
    stack back, and pushing [vs] onto the empty stack and then popping [k]
    times leaves the first [length vs - k] of them. *)
Theorem stack_lifo :
  (forall s v, Stack.step (Stack.step s (stack_push v)) stack_pop = s) /\
  (forall vs k, Stack.run (map stack_push vs ++ repeat stack_pop k)
                = firstn (List.length vs - k) vs).
Proof.
  split.
  - intros s v. simpl. destruct (s ++ [v]) eqn:E.
    + destruct s; discriminate.
    + rewrite <- E. apply removelast_last.
  - intros vs k. unfold Stack.run. rewrite fold_left_app, stack_pushes, stack_pops.
    reflexivity.
Qed.

Lemma queue_enqueues q vs :
  fold_left Queue.step (map queue_enqueue vs) q = q ++ vs.
Proof.
  revert q. induction vs as [|v vs IH]; intros q; simpl.
  - rewrite app_nil_r. reflexivity.
  - rewrite IH, <- app_assoc. reflexivity.
Qed.

Lemma queue_dequeues q k :
  fold_left Queue.step (repeat queue_dequeue k) q = skipn k q.
Proof.
  revert q. induction k as [|k IH]; intros q; simpl; [reflexivity|].
  rewrite IH. destruct q; simpl; [rewrite skipn_nil|]; reflexivity.
Qed.

(** X2.  The queue is first-in first-out: enqueueing [vs] into the empty
    queue and then dequeueing [k] times leaves [vs] without its first [k]
    values, and a dequeue after an enqueue onto a non-empty queue removes
    the old front, not the new value. *)
Theorem queue_fifo :
  (forall vs k, Queue.run (map queue_enqueue vs ++ repeat queue_dequeue k) = skipn k vs) /\
  (forall x q v, Queue.step (Queue.step (x :: q) (queue_enqueue v)) queue_dequeue = q ++ [v]).
Proof.
  split.
  - intros vs k. unfold Queue.run. rewrite fold_left_app, queue_enqueues, queue_dequeues.
    reflexivity.
  - reflexivity.
Qed.

Lemma list_loop_fst ops :
  fst (Animation.list_loop ops) = fold_left (fun h op => fst (LinkedList.step h op)) ops [].
Proof.
  unfold Animation.list_loop.
  assert (H : forall h n, fold_left (fun '(head, frame_count) op =>
                 (fst (LinkedList.step head op), frame_count + 1 + 45 + 1 + 60)%nat) ops (h, n)
              = (fold_left (fun h op => fst (LinkedList.step h op)) ops h,
                 n + 107 * List.length ops)%nat).
  { induction ops as [|op ops IH]; intros h n; simpl.
    - f_equal. lia.
    - rewrite IH. f_equal. lia. }
  rewrite H. reflexivity.
Qed.

(** X3.  In the linked-list animator, [list_insert] adds at the head and
    [list_append] at the tail: inserting [xs] and then appending [ys] to the
    empty list gives [rev xs ++ ys]; deleting right after inserting [v]
    gives the list back and reports [v] as deleted from the head. *)
Theorem linked_list_ends :
  (forall xs ys, fst (Animation.list_loop (map list_insert xs ++ map list_append ys))
                 = rev xs ++ ys) /\
  (forall h v, LinkedList.step (fst (LinkedList.step h (list_insert v))) list_delete
               = (h, Some (LinkedList.deleted_from_head v))).
Proof.
  split; [|reflexivity].
  intros xs ys. rewrite list_loop_fst, fold_left_app.
  assert (Hi : forall h, fold_left (fun h op => fst (LinkedList.step h op))
                                   (map list_insert xs) h = rev xs ++ h).
  { induction xs as [|x xs IH]; intros h; simpl; [reflexivity|].
    rewrite IH, <- app_assoc. reflexivity. }
  assert (Ha : forall h, fold_left (fun h op => fst (LinkedList.step h op))
                                   (map list_append ys) h = h ++ ys).
  { induction ys as [|y ys IH]; intros h; simpl; [rewrite app_nil_r; reflexivity|].
    rewrite IH, <- app_assoc. reflexivity. }
  rewrite Hi, app_nil_r, Ha. reflexivity.
Qed.

(** ** Binary search tree animator *)

Lemma inorder_insert_perm t x :
  Permutation (Tree.inorder_traversal (Tree.insert_node t x))
              (x :: Tree.inorder_traversal t).
Proof.
  induction t as [|l IHl v r IHr]; simpl; [reflexivity|].
  destruct (x <? v); simpl.
  - change (x :: Tree.inorder_traversal l ++ v :: Tree.inorder_traversal r)
      with ((x :: Tree.inorder_traversal l) ++ v :: Tree.inorder_traversal r).
    apply Permutation_app_tail. exact IHl.
  - transitivity (Tree.inorder_traversal l ++ v :: x :: Tree.inorder_traversal r).
    + apply Permutation_app_head. apply perm_skip. exact IHr.
    + transitivity (Tree.inorder_traversal l ++ x :: v :: Tree.inorder_traversal r).
      * apply Permutation_app_head. apply perm_swap.
      * apply Permutation_sym, Permutation_middle.
Qed.

Lemma tree_fold ops t0 n0 t n :
  Tree.bst t0 ->
  fold_left Animation.tree_step ops (Some (t0, n0)) = Some (t, n) ->
  Tree.bst t /\
  Permutation (Tree.inorder_traversal t)
              (Tree.inorder_traversal t0 ++ Invariants.tree_values ops) /\
  n = (n0 + 107 * List.length
                    (filter (fun op => String.eqb (Animation.op_type op) "tree_insert") ops))%nat.
Proof.
  revert t0 n0. induction ops as [|op ops IH]; intros t0 n0 Hb H; simpl in H.
  - injection H as <- <-. simpl. rewrite app_nil_r. repeat split; auto; lia.
  - destruct op; simpl in H |- *;
      try (destruct (IH t0 n0 Hb H) as (Hb' & Hp & Hn); repeat split; auto).
    destruct (py_int value) as [z|] eqn:Ez; [|rewrite tree_step_none in H; discriminate].
    destruct (IH _ _ (insert_bst t0 z Hb) H) as (Hb' & Hp & Hn).
    repeat split; auto; [|lia].
    rewrite Hp. simpl.
    transitivity ((z :: Tree.inorder_traversal t0) ++ Invariants.tree_values ops).
    + apply Permutation_app_tail, inorder_insert_perm.
    + simpl. apply Permutation_middle.
Qed.

(** X4.  When the tree animator runs to the end, the in-order traversal of
    its final tree is the sorted arrangement of the integers of the
    [tree_insert] operations, duplicates kept, and it saves
    [121 + 107 * k] frames for [k] [tree_insert] operations: the other
    operations are skipped without a frame. *)
Theorem tree_animation_sorts :
  forall ops root frame_count,
    Animation.tree_loop ops = Some (root, frame_count) ->
    Permutation (Tree.inorder_traversal root) (Invariants.tree_values ops) /\
    StronglySorted Z.le (Tree.inorder_traversal root) /\
    frame_count = (121 + 107 * List.length
                     (filter (fun op => String.eqb (Animation.op_type op) "tree_insert") ops))%nat.
Proof.
  intros ops root fc H. unfold Animation.tree_loop in H.
  destruct (fold_left Animation.tree_step ops _)
    as [[t n]|] eqn:E; [|discriminate].
  injection H as <- <-.
  destruct (tree_fold ops Tree.Leaf _ t n I E) as (Hb & Hp & Hn).
  repeat split.
  - exact Hp.
  - apply bst_inorder_sorted, Hb.
  - lia.
Qed.

Lemma tree_animation_sorts_witness :
  Permutation (Tree.inorder_traversal (Tree.build [50; 30; 70; 30]))
              (Invariants.tree_values [tree_insert "50"; stack_pop; tree_insert "30";
                                      tree_insert "70"; tree_insert "30"]) /\
  StronglySorted Z.le (Tree.inorder_traversal (Tree.build [50; 30; 70; 30])) /\
  (549 = 121 + 107 * List.length
     (filter (fun op => String.eqb (Animation.op_type op) "tree_insert")
        [tree_insert "50"; stack_pop; tree_insert "30"; tree_insert "70"; tree_insert "30"]))%nat.
Proof.
  apply (tree_animation_sorts [tree_insert "50"; stack_pop; tree_insert "30";
                               tree_insert "70"; tree_insert "30"]).
  vm_compute. reflexivity.
Defined.

(** ** Array animator *)



(** ** Hash table animator *)

Section HashFacts.
Import HashTable.

Lemma hash_function_range sec k : 0 <= hash_function sec k < 7.
Proof. unfold hash_function, table_size. apply Z.mod_pos_bound. lia. Qed.

Lemma length_set_nth {A} n (x : A) l : List.length (set_nth n x l) = List.length l.
Proof.
  revert n. induction l as [|y l IH]; intros [|n]; simpl; auto.
Qed.

Lemma nth_set_nth_same {A} n (x : A) l d :
  (n < List.length l)%nat -> nth n (set_nth n x l) d = x.
Proof.
  revert n. induction l as [|y l IH]; intros [|n] H; simpl in *; try lia; auto.
  all: apply IH; lia.
Qed.

Lemma nth_set_nth_other {A} i n (x : A) l d :
  i <> n -> nth i (set_nth n x l) d = nth i l d.
Proof.
  revert i n. induction l as [|y l IH]; intros [|i] [|n] H; simpl; auto; try lia.
  all: apply IH; lia.
Qed.

Lemma set_nth_nth {A} n (l : list A) d : set_nth n (nth n l d) l = l.
Proof.
  revert n. induction l as [|y l IH]; intros [|n]; simpl; auto. rewrite IH. reflexivity.
Qed.

Lemma set_nth_twice {A} n (x y : A) l : set_nth n x (set_nth n y l) = set_nth n x l.
Proof.
  revert n. induction l as [|z l IH]; intros [|n]; simpl; auto. rewrite IH. reflexivity.
Qed.

Lemma mem_In k l : mem k l = true <-> In k l.
Proof.
  unfold mem. rewrite existsb_exists. split.
  - intros (y & Hy & E). apply String.eqb_eq in E. subst. exact Hy.
  - intros H. exists k. split; [exact H | apply String.eqb_refl].
Qed.

Lemma mem_false k l : mem k l = false <-> ~ In k l.
Proof.
  rewrite <- mem_In. destruct (mem k l); split; congruence.
Qed.

Lemma remove_first_other k k' l : k' <> k -> In k' (remove_first k l) <-> In k' l.
Proof.
  intros Hne. induction l as [|y l IH]; simpl; [tauto|].
  destruct (String.eqb k y) eqn:E.
  - apply String.eqb_eq in E. subst y. split; [auto|]. intros [H|H]; [congruence|exact H].
  - simpl. rewrite IH. tauto.
Qed.

Lemma remove_first_incl k l y : In y (remove_first k l) -> In y l.
Proof.
  induction l as [|z l IH]; simpl; [tauto|].
  destruct (String.eqb k z); simpl; tauto.
Qed.

Lemma remove_first_nodup k l : NoDup l -> NoDup (remove_first k l).
Proof.
  induction l as [|y l IH]; simpl; intros H; [constructor|].
  inversion H as [|? ? Hy Hl]; subst.
  destruct (String.eqb k y); [exact Hl|].
  constructor; [|auto]. intros Hin. apply Hy. eapply remove_first_incl. exact Hin.
Qed.

Lemma remove_first_gone k l : NoDup l -> ~ In k (remove_first k l).
Proof.
  induction l as [|y l IH]; simpl; intros H; [tauto|].
  inversion H as [|? ? Hy Hl]; subst.
  destruct (String.eqb k y) eqn:E.
  - apply String.eqb_eq in E. subst. exact Hy.
  - apply String.eqb_neq in E. simpl. intros [H'|H']; [congruence|]. apply (IH Hl H').
Qed.

Lemma remove_first_snoc k l : ~ In k l -> remove_first k (l ++ [k]) = l.
Proof.
  induction l as [|y l IH]; simpl; intros H.
  - rewrite String.eqb_refl. reflexivity.
  - destruct (String.eqb k y) eqn:E.
    + apply String.eqb_eq in E. subst. tauto.
    + rewrite IH by tauto. reflexivity.
Qed.

Lemma nodup_snoc (l : list string) k : NoDup l -> ~ In k l -> NoDup (l ++ [k]).
Proof.
  intros Hl Hk. apply (Permutation_NoDup (Permutation_cons_append l k)).
  constructor; assumption.
Qed.

Lemma hash_index sec k :
  Z.of_nat (Z.to_nat (hash_function sec k)) = hash_function sec k /\
  (Z.to_nat (hash_function sec k) < 7)%nat.
Proof. pose proof (hash_function_range sec k). split; lia. Qed.

Lemma hash_step_wf sec st op :
  Invariants.hash_wf sec st -> Invariants.hash_wf sec (fst (step sec st op)).
Proof.
  unfold Invariants.hash_wf. intros [Hlen Hb].
  destruct op; simpl; try (split; assumption).
  - (* hash_insert *)
    destruct (hash_index sec key) as [Hid Hn].
    set (n := Z.to_nat (hash_function sec key)) in *.
    unfold chain. fold n.
    destruct (mem key (nth n (hash_table st) [])) eqn:Em; simpl; [split; assumption|].
    split; [rewrite length_set_nth; exact Hlen|].
    intros i Hi. destruct (Nat.eq_dec i n) as [->|Hne].
    + rewrite nth_set_nth_same by lia. destruct (Hb n Hn) as [Hd Hf].
      apply mem_false in Em. split; [apply nodup_snoc; assumption|].
      apply Forall_app. split; [exact Hf|]. constructor; [|constructor]. rewrite Hid. reflexivity.
    + rewrite nth_set_nth_other by exact Hne. apply Hb, Hi.
  - (* hash_delete *)
    destruct (hash_index sec key) as [Hid Hn].
    set (n := Z.to_nat (hash_function sec key)) in *.
    unfold chain. fold n.
    destruct (mem key (nth n (hash_table st) [])) eqn:Em; simpl; [|split; assumption].
    split; [rewrite length_set_nth; exact Hlen|].
    intros i Hi. destruct (Nat.eq_dec i n) as [->|Hne].
    + rewrite nth_set_nth_same by lia. destruct (Hb n Hn) as [Hd Hf].
      split; [apply remove_first_nodup, Hd|].
      rewrite Forall_forall in Hf |- *. intros y Hy. apply Hf.
      eapply remove_first_incl. exact Hy.
    + rewrite nth_set_nth_other by exact Hne. apply Hb, Hi.
Qed.

End HashFacts.

(** X6.  Whatever the hash secret and the operations, the table of the
    hash-table animator keeps seven buckets, every key sits in the bucket
    [hash(str(key)) % 7], no bucket holds a key twice, and every
    highlighted bucket index is between 0 and 6. *)
Theorem hash_table_invariant :
  forall sec ops,
    Invariants.hash_wf sec (HashTable.final sec ops) /\
    (forall st op i, snd (HashTable.step sec st op) = Some i -> 0 <= i < 7).
Proof.
  intros sec ops. split.
  - unfold HashTable.final.
    assert (H0 : Invariants.hash_wf sec HashTable.initial).
    { split; [reflexivity|]. intros i Hi. simpl.
      do 7 (destruct i as [|i]; [split; constructor|]). lia. }
    revert H0. generalize HashTable.initial.
    induction ops as [|op ops IH]; intros st Hst; simpl; [exact Hst|].
    apply IH, hash_step_wf, Hst.
  - intros st op i H. destruct op; simpl in H; try discriminate;
      injection H as <-; apply hash_function_range.
Qed.

Lemma hash_chain_after sec st op key' :
  Invariants.hash_wf sec st ->
  (forall key, op = hash_insert key ->
     HashTable.chain (HashTable.hash_table (fst (HashTable.step sec st op)))
                     (HashTable.hash_function sec key')
     = if Z.eqb (HashTable.hash_function sec key') (HashTable.hash_function sec key)
       then (let c := HashTable.chain (HashTable.hash_table st) (HashTable.hash_function sec key) in
             if HashTable.mem key c then c else c ++ [key])
       else HashTable.chain (HashTable.hash_table st) (HashTable.hash_function sec key')) /\
  (forall key, op = hash_delete key ->
     HashTable.chain (HashTable.hash_table (fst (HashTable.step sec st op)))
                     (HashTable.hash_function sec key')
     = if Z.eqb (HashTable.hash_function sec key') (HashTable.hash_function sec key)
       then (let c := HashTable.chain (HashTable.hash_table st) (HashTable.hash_function sec key) in
             if HashTable.mem key c then HashTable.remove_first key c else c)
       else HashTable.chain (HashTable.hash_table st) (HashTable.hash_function sec key')).
Proof.
  intros [Hlen _].
  destruct (hash_index sec key') as [Hid' Hn'].
  split; intros key ->; destruct (hash_index sec key) as [Hid Hn]; simpl;
    unfold HashTable.chain;
    destruct (Z.eqb_spec (HashTable.hash_function sec key') (HashTable.hash_function sec key))
      as [E|E].
  - rewrite E. cbv zeta.
    destruct (HashTable.mem key _); simpl; [reflexivity|].
    apply nth_set_nth_same. lia.
  - destruct (HashTable.mem key _); simpl; [reflexivity|].
    apply nth_set_nth_other. lia.
  - rewrite E. cbv zeta.
    destruct (HashTable.mem key _); simpl; [|reflexivity].
    apply nth_set_nth_same. lia.
  - destruct (HashTable.mem key _); simpl; [|reflexivity].
    apply nth_set_nth_other. lia.
Qed.

(** X7.  On a well-formed table, a search right after inserting [key]
    finds it, a search right after deleting [key] does not, and inserting or
    deleting [key] does not change whether any other key is found. *)
Theorem hash_search_after_update :
  forall sec st key,
    Invariants.hash_wf sec st ->
    HashTable.found sec (fst (HashTable.step sec st (hash_insert key))) key = true /\
    HashTable.found sec (fst (HashTable.step sec st (hash_delete key))) key = false /\
    (forall key', key' <> key ->
       HashTable.found sec (fst (HashTable.step sec st (hash_insert key))) key'
       = HashTable.found sec st key' /\
       HashTable.found sec (fst (HashTable.step sec st (hash_delete key))) key'
       = HashTable.found sec st key').
Proof.
  intros sec st key Hwf. unfold HashTable.found.
  assert (Hnd : forall k, NoDup (HashTable.chain (HashTable.hash_table st)
                                               (HashTable.hash_function sec k))).
  { intros k. destruct Hwf as [_ Hb]. destruct (hash_index sec k) as [_ Hn].
    apply (Hb _ Hn). }
  split; [|split].
  - destruct (hash_chain_after sec st (hash_insert key) key Hwf) as [Hi _].
    rewrite (Hi key eq_refl), Z.eqb_refl. cbv zeta.
    destruct (HashTable.mem key (HashTable.chain (HashTable.hash_table st) (HashTable.hash_function sec key))) eqn:Em;
      [exact Em|].
    apply mem_In, in_or_app. right. left. reflexivity.
  - destruct (hash_chain_after sec st (hash_delete key) key Hwf) as [_ Hd].
    rewrite (Hd key eq_refl), Z.eqb_refl. cbv zeta.
    destruct (HashTable.mem key (HashTable.chain (HashTable.hash_table st) (HashTable.hash_function sec key))) eqn:Em;
      [|exact Em].
    apply mem_false, remove_first_gone, Hnd.
  - intros key' Hne.
    destruct (hash_chain_after sec st (hash_insert key) key' Hwf) as [Hi _].
    destruct (hash_chain_after sec st (hash_delete key) key' Hwf) as [_ Hd].
    rewrite (Hi key eq_refl), (Hd key eq_refl).
    destruct (Z.eqb_spec (HashTable.hash_function sec key') (HashTable.hash_function sec key))
      as [E|E]; [|split; reflexivity].
    cbv zeta. rewrite <- E.
    set (c := HashTable.chain (HashTable.hash_table st) (HashTable.hash_function sec key')).
    destruct (HashTable.mem key c); split; try reflexivity.
    + destruct (HashTable.mem key' (HashTable.remove_first key c)) eqn:E1;
        destruct (HashTable.mem key' c) eqn:E2; try reflexivity; exfalso.
      * apply mem_In in E1. apply mem_false in E2. apply E2.
        eapply remove_first_incl. exact E1.
      * apply mem_false in E1. apply mem_In in E2. apply E1.
        apply remove_first_other; assumption.
    + destruct (HashTable.mem key' (c ++ [key])) eqn:E1;
        destruct (HashTable.mem key' c) eqn:E2; try reflexivity; exfalso.
      * apply mem_In in E1. apply mem_false in E2. apply in_app_or in E1.
        destruct E1 as [E1|[E1|[]]]; [exact (E2 E1)|exact (Hne (eq_sym E1))].
      * apply mem_false in E1. apply mem_In in E2. apply E1, in_or_app. left. exact E2.
Qed.

Lemma hash_search_after_update_witness :
  HashTable.found (secret_of_seed 0)
    (fst (HashTable.step (secret_of_seed 0) HashTable.initial (hash_insert "15"))) "15" = true /\
  HashTable.found (secret_of_seed 0)
    (fst (HashTable.step (secret_of_seed 0) HashTable.initial (hash_delete "15"))) "15" = false /\
  (forall key', key' <> "15" ->
     HashTable.found (secret_of_seed 0)
       (fst (HashTable.step (secret_of_seed 0) HashTable.initial (hash_insert "15"))) key'
     = HashTable.found (secret_of_seed 0) HashTable.initial key' /\
     HashTable.found (secret_of_seed 0)
       (fst (HashTable.step (secret_of_seed 0) HashTable.initial (hash_delete "15"))) key'
     = HashTable.found (secret_of_seed 0) HashTable.initial key').
Proof.
  apply hash_search_after_update.
  split; [reflexivity|]. intros i Hi. simpl.
  do 7 (destruct i as [|i]; [split; constructor|]). lia.
Defined.

(** X8.  On a well-formed table, inserting a key that is not there and then
    deleting it gives the table back; only the collision counter may have
    moved, by one exactly when the key's bucket was not empty. *)
Theorem hash_insert_delete_roundtrip :
  forall sec st key,
    Invariants.hash_wf sec st ->
    HashTable.found sec st key = false ->
    let st' := fst (HashTable.step sec (fst (HashTable.step sec st (hash_insert key)))
                                   (hash_delete key)) in
    HashTable.hash_table st' = HashTable.hash_table st /\
    HashTable.collision_count st'
    = HashTable.collision_count st
      + match HashTable.chain (HashTable.hash_table st) (HashTable.hash_function sec key) with
        | [] => 0
        | _ :: _ => 1
        end.
Proof.
  intros sec st key [Hlen Hb] Hf st'.
  unfold HashTable.found in Hf.
  destruct (hash_index sec key) as [Hid Hn].
  subst st'. simpl. unfold HashTable.chain in *.
  set (n := Z.to_nat (HashTable.hash_function sec key)) in *.
  rewrite Hf. simpl.
  rewrite nth_set_nth_same by lia.
  assert (Hm : HashTable.mem key (nth n (HashTable.hash_table st) [] ++ [key]) = true)
    by (apply mem_In, in_or_app; right; left; reflexivity).
  rewrite Hm. simpl. split;
    [|destruct (nth n (HashTable.hash_table st) []); simpl; lia].
  rewrite remove_first_snoc by (apply mem_false, Hf).
  rewrite set_nth_twice. apply set_nth_nth.
Qed.

Lemma hash_insert_delete_roundtrip_witness :
  let st := HashTable.HState [[]; []; []; []; []; []; ["15"]] 0 in
  let st' := fst (HashTable.step (secret_of_seed 0)
                    (fst (HashTable.step (secret_of_seed 0) st (hash_insert "22")))
                    (hash_delete "22")) in
  HashTable.hash_table st' = HashTable.hash_table st /\
  HashTable.collision_count st' = HashTable.collision_count st + 1.
Proof.
  apply (hash_insert_delete_roundtrip (secret_of_seed 0)
           (HashTable.HState [[]; []; []; []; []; []; ["15"]] 0) "22").
  - split; [reflexivity|]. intros i Hi.
    do 6 (destruct i as [|i]; [split; constructor|]).
    destruct i as [|i]; [|lia]. simpl.
    split; [constructor; [simpl; tauto | constructor]|].
    constructor; [vm_compute; reflexivity | constructor].
  - vm_compute. reflexivity.
Defined.

(** ** Graph animator *)

Section GraphWf.
Import Graph.

Lemma has_key_assoc_set {V} k k2 (v : V) l :
  has_key k (assoc_set k2 v l) = String.eqb k k2 || has_key k l.
Proof.
  destruct (String.eqb k k2) eqn:E; simpl.
  - apply String.eqb_eq in E. subst. unfold has_key. rewrite assoc_set_same. reflexivity.
  - apply String.eqb_neq in E. unfold has_key. rewrite assoc_set_other by exact E.
    reflexivity.
Qed.

Lemma assoc_set_unit k (l : list (string * unit)) :
  has_key k l = true -> assoc_set k tt l = l.
Proof.
  induction l as [|[k' []] rest IH]; simpl; unfold has_key; simpl; [discriminate|].
  destruct (String.eqb k k'); [reflexivity|]. intros H. rewrite IH; [reflexivity|exact H].
Qed.

Lemma gmem_false x l : mem x l = false -> ~ In x l.
Proof.
  unfold mem. intros H Hin. assert (existsb (String.eqb x) l = true); [|congruence].
  apply existsb_exists. exists x. split; [exact Hin | apply String.eqb_refl].
Qed.

Lemma gmem_true x l : mem x l = true -> In x l.
Proof.
  unfold mem. intros H. apply existsb_exists in H as (y & Hy & E).
  apply String.eqb_eq in E. subst. exact Hy.
Qed.

Lemma targets_mono (n1 n2 : list (string * unit)) l :
  (forall k, has_key k n1 = true -> has_key k n2 = true) ->
  Forall (fun t => has_key t n1 = true) l -> Forall (fun t => has_key t n2 = true) l.
Proof. intros H. apply Forall_impl. exact H. Qed.

Lemma ensure_wf g n :
  Invariants.graph_wf g ->
  Invariants.graph_wf (ensure_node g n) /\
  has_key n (nodes (ensure_node g n)) = true /\
  has_key n (adjacency (ensure_node g n)) = true /\
  visited_order (ensure_node g n) = visited_order g.
Proof.
  intros (Hk & Ha & Hv). unfold ensure_node.
  assert (E2 : has_key n (adjacency g) = has_key n (nodes g)) by (symmetry; apply Hk).
  destruct (has_key n (nodes g)) eqn:E; rewrite E2; unfold Invariants.graph_wf; simpl.
  - rewrite E, E2. refine (conj (conj Hk (conj Ha Hv)) _). auto.
  - split; [split; [|split]|split; [|split]]; [| |exact Hv| | |reflexivity].
    + intros k. rewrite !has_key_assoc_set, Hk. reflexivity.
    + intros k l Hl. destruct (String.eqb k n) eqn:Ek.
      * apply String.eqb_eq in Ek. subst. rewrite assoc_set_same in Hl.
        injection Hl as <-. split; constructor.
      * apply String.eqb_neq in Ek. rewrite assoc_set_other in Hl by exact Ek.
        destruct (Ha k l Hl) as [Hd Hf]. split; [exact Hd|].
        eapply targets_mono; [|exact Hf]. intros x Hx.
        rewrite has_key_assoc_set, Hx, orb_true_r. reflexivity.
    + rewrite has_key_assoc_set, String.eqb_refl. reflexivity.
    + rewrite has_key_assoc_set, String.eqb_refl. reflexivity.
Qed.

Lemma add_node_is_ensure g node :
  Invariants.graph_wf g -> step g (graph_add_node node) = ensure_node g node.
Proof.
  intros (Hk & _ & _). unfold step, ensure_node. simpl. rewrite <- (Hk node).
  destruct (has_key node (nodes g)) eqn:E; [|reflexivity].
  rewrite assoc_set_unit by exact E. destruct g; reflexivity.
Qed.

Lemma visit_fold l vo :
  NoDup vo ->
  exists added,
    fold_left (fun vo nb => if mem nb vo then vo else vo ++ [nb]) l vo = vo ++ added /\
    NoDup (vo ++ added) /\ incl added l /\ (List.length added <= List.length l)%nat.
Proof.
  revert vo. induction l as [|x l IH]; intros vo Hvo; simpl.
  - exists []. rewrite app_nil_r. repeat split; auto. intros y [].
  - destruct (mem x vo) eqn:E.
    + destruct (IH vo Hvo) as (added & Heq & Hnd & Hin & Hlen).
      exists added. split; [exact Heq|]. split; [exact Hnd|]. split; [|lia].
      intros y Hy. right. apply Hin, Hy.
    + assert (Hvo' : NoDup (vo ++ [x])) by (apply nodup_snoc; [exact Hvo | apply gmem_false, E]).
      destruct (IH _ Hvo') as (added & Heq & Hnd & Hin & Hlen).
      exists (x :: added). rewrite <- app_assoc in Heq, Hnd. simpl in *.
      split; [exact Heq|]. split; [exact Hnd|]. split; [|lia].
      intros y [<-|Hy]; [left; reflexivity | right; apply Hin, Hy].
Qed.

Lemma traverse_spec g s :
  NoDup (visited_order g) ->
  nodes (traverse g s) = nodes g /\ adjacency (traverse g s) = adjacency g /\
  exists added,
    visited_order (traverse g s) = visited_order g ++ added /\
    NoDup (visited_order g ++ added) /\
    (List.length added <= 3)%nat /\
    Forall (fun x => x = s \/ In x (firstn 2 (adj g s))) added /\
    (String.eqb s EmptyString = true \/ mem s (visited_order g) = true -> added = []).
Proof.
  intros Hnd. unfold traverse.
  destruct (negb (String.eqb s EmptyString) && negb (mem s (visited_order g))) eqn:E.
  - apply andb_true_iff in E as [E1 E2]. apply negb_true_iff in E1, E2.
    assert (H0 : NoDup (visited_order g ++ [s])) by (apply nodup_snoc; [exact Hnd | apply gmem_false, E2]).
    cbv zeta; cbn [nodes adjacency visited_order]. split; [reflexivity|]. split; [reflexivity|].
    destruct (has_key s (adjacency g)).
    + destruct (visit_fold (firstn 2 (adj g s)) _ H0) as (added & Heq & Hnd' & Hin & Hlen).
      exists (s :: added). rewrite Heq, <- app_assoc. simpl.
      rewrite <- app_assoc in Hnd'. simpl in Hnd'.
      rewrite length_firstn in Hlen.
      split; [reflexivity|]. split; [exact Hnd'|]. split; [simpl; lia|]. split.
      * constructor; [left; reflexivity|]. apply Forall_forall. intros x Hx. right. apply Hin, Hx.
      * intros [H|H]; congruence.
    + exists [s]. split; [reflexivity|]. split; [exact H0|]. split; [simpl; lia|]. split.
      * constructor; [left; reflexivity | constructor].
      * intros [H|H]; congruence.
  - split; [reflexivity|]. split; [reflexivity|].
    exists []. rewrite app_nil_r. repeat split; auto.
Qed.

Lemma graph_step_wf g op :
  Invariants.graph_wf g -> Invariants.graph_wf (step g op).
Proof.
  intros Hwf. destruct op; try (destruct g; exact Hwf).
  - rewrite add_node_is_ensure by exact Hwf. apply ensure_wf, Hwf.
  - (* graph_add_edge *)
    destruct (ensure_wf g from_node Hwf) as (Hw1 & Hn1 & Ha1 & Hv1).
    destruct (ensure_wf _ to_node Hw1) as (Hw2 & Hn2 & Ha2 & Hv2).
    set (g1 := ensure_node (ensure_node g from_node) to_node) in *.
    assert (Hf1 : has_key from_node (adjacency g1) = true)
      by (subst g1; apply ensure_adjacency; left; exact Ha1).
    unfold step. cbv zeta. fold g1. clearbody g1.
    destruct (mem to_node (adj g1 from_node)) eqn:Em; simpl.
    + exact Hw2.
    + destruct Hw2 as (Hk & Ha & Hv).
      assert (Hl0 : assoc from_node (adjacency g1) = Some (adj g1 from_node)).
      { unfold adj. unfold has_key in Hf1. destruct (assoc from_node (adjacency g1));
          [reflexivity | discriminate]. }
      unfold Invariants.graph_wf; cbn [nodes adjacency visited_order edge_weights].
      split; [|split; [|exact Hv]].
      * intros k. rewrite has_key_assoc_set, Hk.
        destruct (String.eqb k from_node) eqn:Ek; [|reflexivity].
        apply String.eqb_eq in Ek. subst. rewrite <- Hk.
        rewrite Hk. exact Hf1.
      * intros k l Hl. destruct (String.eqb k from_node) eqn:Ek.
        -- apply String.eqb_eq in Ek. subst. rewrite assoc_set_same in Hl.
           injection Hl as <-. destruct (Ha _ _ Hl0) as [Hd Hf]. split.
           ++ apply nodup_snoc; [exact Hd | apply gmem_false, Em].
           ++ apply Forall_app. split; [exact Hf|]. constructor; [exact Hn2 | constructor].
        -- apply String.eqb_neq in Ek. rewrite assoc_set_other in Hl by exact Ek.
           apply (Ha k l Hl).
  - destruct Hwf as (Hk & Ha & Hv). destruct (traverse_spec g node Hv)
      as (Hn & Hadj & added & Hvo & Hnd & _).
    unfold Invariants.graph_wf. change (step g (graph_dfs node)) with (traverse g node).
    rewrite Hn, Hadj, Hvo. exact (conj Hk (conj Ha Hnd)).
  - destruct Hwf as (Hk & Ha & Hv). destruct (traverse_spec g node Hv)
      as (Hn & Hadj & added & Hvo & Hnd & _).
    unfold Invariants.graph_wf. change (step g (graph_bfs node)) with (traverse g node).
    rewrite Hn, Hadj, Hvo. exact (conj Hk (conj Ha Hnd)).
Qed.

End GraphWf.

Lemma graph_loop_fst ops :
  fst (Animation.graph_loop ops) = fold_left Graph.step ops Graph.empty.
Proof.
  unfold Animation.graph_loop.
  assert (H : forall g n, fold_left (fun '(g, frame_count) op =>
                 (Graph.step g op, frame_count + 1 + 45 + 1 + 60)%nat) ops (g, n)
              = (fold_left Graph.step ops g, n + 107 * List.length ops)%nat).
  { induction ops as [|op ops IH]; intros g n; simpl.
    - f_equal. lia.
    - rewrite IH. f_equal. lia. }
  rewrite H. reflexivity.
Qed.

(** X9.  For every operation sequence, the graph animator's final state has
    the same keys in [nodes] and in [adjacency], every adjacency list
    names only existing nodes and none twice, and [visited_order] never
    lists a name twice. *)
Theorem graph_invariant :
  forall ops, Invariants.graph_wf (fst (Animation.graph_loop ops)).
Proof.
  intros ops. rewrite graph_loop_fst.
  assert (H0 : Invariants.graph_wf Graph.empty).
  { split; [intros k; reflexivity | split; [intros k l H; discriminate | constructor]]. }
  revert H0. generalize Graph.empty.
  induction ops as [|op ops IH]; intros g Hg; simpl; [exact Hg|].
  apply IH, graph_step_wf, Hg.
Qed.

Lemma visit_fold_any l vo :
  exists added,
    fold_left (fun vo nb => if Graph.mem nb vo then vo else vo ++ [nb]) l vo = vo ++ added /\
    incl added l /\ (List.length added <= List.length l)%nat.
Proof.
  revert vo. induction l as [|x l IH]; intros vo; simpl.
  - exists []. rewrite app_nil_r. split; [reflexivity|]. split; [intros y []|]. simpl. lia.
  - destruct (Graph.mem x vo).
    + destruct (IH vo) as (added & Heq & Hin & Hlen).
      exists added. split; [exact Heq|]. split; [|lia].
      intros y Hy. right. apply Hin, Hy.
    + destruct (IH (vo ++ [x])) as (added & Heq & Hin & Hlen).
      exists (x :: added). rewrite <- app_assoc in Heq. simpl in Heq.
      split; [exact Heq|]. split; [|simpl; lia].
      intros y [<-|Hy]; [left; reflexivity | right; apply Hin, Hy].
Qed.

(** X10.  A [graph_dfs] or [graph_bfs] step changes only [visited_order],
    and only by appending at most three names: the start node and names
    among the first two entries of its adjacency list.  It appends nothing
    when the start node is the empty string or already visited. *)
Theorem graph_traversal_bounded :
  forall g s,
    Graph.step g (graph_bfs s) = Graph.step g (graph_dfs s) /\
    exists added,
      Graph.step g (graph_dfs s)
      = Graph.GState (Graph.nodes g) (Graph.adjacency g) (Graph.edge_weights g)
                     (Graph.visited_order g ++ added) /\
      (List.length added <= 3)%nat /\
      Forall (fun x => x = s \/ In x (firstn 2 (Graph.adj g s))) added /\
      (s = EmptyString \/ In s (Graph.visited_order g) -> added = []).
Proof.
  intros g s. split; [reflexivity|]. simpl. unfold Graph.traverse.
  destruct (negb (String.eqb s EmptyString) && negb (Graph.mem s (Graph.visited_order g))) eqn:E.
  - apply andb_true_iff in E as [E1 E2]. apply negb_true_iff in E1, E2.
    assert (Hs : ~ (s = EmptyString \/ In s (Graph.visited_order g))).
    { intros [->|Hin]; [discriminate|].
      assert (Graph.mem s (Graph.visited_order g) = true); [|congruence].
      unfold Graph.mem. apply existsb_exists. exists s.
      split; [exact Hin | apply String.eqb_refl]. }
    cbv zeta. destruct (Graph.has_key s (Graph.adjacency g)).
    + destruct (visit_fold_any (firstn 2 (Graph.adj g s)) (Graph.visited_order g ++ [s]))
        as (added & Heq & Hin & Hlen).
      exists (s :: added). rewrite Heq, <- app_assoc. simpl.
      rewrite length_firstn in Hlen.
      split; [reflexivity|]. split; [simpl; lia|]. split.
      * constructor; [left; reflexivity|]. apply Forall_forall. intros x Hx. right. apply Hin, Hx.
      * intros H. contradiction.
    + exists [s]. split; [reflexivity|]. split; [simpl; lia|]. split.
      * constructor; [left; reflexivity | constructor].
      * intros H. contradiction.
  - exists []. rewrite app_nil_r. destruct g. split; [reflexivity|].
    split; [simpl; lia|]. split; [constructor | reflexivity].
Qed.

(** ** Content classification *)

Section ClassifierFacts.
Import Classifier.

Lemma count_fuel_nonneg fuel sub s : 0 <= Str.count_fuel fuel sub s.
Proof.
  revert s. induction fuel as [|f IH]; intros s; [simpl; lia|].
  destruct s as [|a s]; [simpl; lia|].
  change (Str.count_fuel (S f) sub (String a s)) with
    (if prefix sub (String a s)
     then 1 + Str.count_fuel f sub (substring (String.length sub) (String.length (String a s)) (String a s))
     else Str.count_fuel f sub s).
  destruct (prefix sub (String a s)); [|apply IH].
  pose proof (IH (substring (String.length sub) (String.length (String a s)) (String a s))). lia.
Qed.

Lemma sum_nonneg (f : string -> Z) l :
  (forall x, 0 <= f x) -> 0 <= sum f l.
Proof.
  intros Hf. unfold sum.
  assert (H : forall acc, 0 <= acc -> 0 <= fold_left (fun acc x => acc + f x) l acc).
  { induction l as [|x l IH]; intros acc Hacc; simpl; [exact Hacc|].
    apply IH. specialize (Hf x). lia. }
  apply H. lia.
Qed.

Lemma keyword_weight_pos ct k : 0 <= keyword_weight ct k.
Proof.
  destruct ct; simpl; try lia; match goal with |- context [if ?b then _ else _] => destruct b end; lia.
Qed.

Lemma score_nonneg text ct p : 0 <= score text ct p.
Proof.
  unfold score. unfold Str.count.
  repeat apply Z.add_nonneg_nonneg; apply sum_nonneg; intros x;
    apply Z.mul_nonneg_nonneg; try apply count_fuel_nonneg; try lia.
  apply keyword_weight_pos.
Qed.

Lemma argmax_spec (l : list (content_type * Z)) best :
  exists pre p post,
    best :: l = pre ++ p :: post /\ fst p = argmax best l /\
    Forall (fun q => snd q < snd p) pre /\ Forall (fun q => snd q <= snd p) post.
Proof.
  revert best. induction l as [|[ct s] rest IH]; intros best.
  - exists [], best, []. repeat split; constructor.
  - simpl. destruct (Z.ltb_spec (snd best) s) as [Hlt|Hge].
    + destruct (IH (ct, s)) as (pre & p & post & Heq & Hf & Hpre & Hpost).
      assert (Hs : s <= snd p).
      { destruct pre as [|q pre']; simpl in Heq; injection Heq as Hq _.
        - subst p. simpl. lia.
        - subst q. inversion Hpre; subst. simpl in *. lia. }
      exists (best :: pre), p, post. rewrite Heq.
      split; [reflexivity|]. split; [exact Hf|].
      split; [constructor; [simpl; lia | exact Hpre] | exact Hpost].
    + destruct (IH best) as (pre & p & post & Heq & Hf & Hpre & Hpost).
      destruct pre as [|q pre']; simpl in Heq; injection Heq as Hq Hrest.
      * subst p post. exists [], best, ((ct, s) :: rest).
        split; [reflexivity|]. split; [exact Hf|]. split; [constructor|].
        constructor; [simpl; lia | exact Hpost].
      * subst q. inversion Hpre as [|? ? Hb Hpre']; subst.
        exists (best :: (ct, s) :: pre'), p, post.
        split; [reflexivity|]. split; [exact Hf|]. split; [|exact Hpost].
        constructor; [exact Hb|]. constructor; [simpl in *; lia | exact Hpre'].
Qed.

Lemma content_type_eqb_eq a b : content_type_eqb a b = true <-> a = b.
Proof. destruct a, b; simpl; split; congruence. Qed.

Lemma lookup_absent ct l : ~ In ct (map fst l) -> lookup ct l = None.
Proof.
  induction l as [|[ct' s] l IH]; simpl; intros H; [reflexivity|].
  destruct (content_type_eqb ct ct') eqn:E.
  - apply content_type_eqb_eq in E. subst. tauto.
  - apply IH. tauto.
Qed.

Lemma lookup_first ct s pre post :
  ~ In ct (map fst pre) -> lookup ct (pre ++ (ct, s) :: post) = Some s.
Proof.
  induction pre as [|[ct' s'] pre IH]; simpl; intros H.
  - replace (content_type_eqb ct ct) with true; [reflexivity|].
    symmetry. apply content_type_eqb_eq. reflexivity.
  - destruct (content_type_eqb ct ct') eqn:E.
    + apply content_type_eqb_eq in E. subst. tauto.
    + apply IH. tauto.
Qed.

Lemma content_scores_keys text :
  map fst (content_scores text)
  = [data_structures; algorithms; mathematics; physics; chemistry; biology; business].
Proof. reflexivity. Qed.

Lemma content_scores_nonneg text : Forall (fun p => 0 <= snd p) (content_scores text).
Proof.
  unfold content_scores. apply Forall_forall. intros [ct s] Hin.
  apply in_map_iff in Hin as ([ct' p] & Heq & _). injection Heq as <- <-.
  apply score_nonneg.
Qed.

End ClassifierFacts.

(** X11.  [analyze_content] fails exactly when every category scores zero.
    Otherwise every score is non-negative, the chosen type has the largest
    score, which is positive, and it is the first category with that score
    in the order data structures, algorithms, mathematics, physics,
    chemistry, biology, business: each earlier category scores strictly
    less.  The reported scores are the seven computed ones. *)
Theorem analyze_content_first_max :
  forall text,
    (Classifier.analyze_content text = None <->
     Forall (fun p => snd p = 0) (Classifier.content_scores text)) /\
    (forall a, Classifier.analyze_content text = Some a ->
       Classifier.all_scores a = Classifier.content_scores text /\
       0 < Classifier.top_score a /\
       exists pre post,
         Classifier.content_scores text
         = pre ++ (Classifier.type a, Classifier.top_score a) :: post /\
         Forall (fun p => 0 <= snd p < Classifier.top_score a) pre /\
         Forall (fun p => 0 <= snd p <= Classifier.top_score a) post).
Proof.
  intros text. unfold Classifier.analyze_content.
  pose proof (content_scores_keys text) as Hkeys.
  pose proof (content_scores_nonneg text) as Hnn.
  set (scores := Classifier.content_scores text) in *. clearbody scores.
  assert (Hnd : NoDup (map fst scores)).
  { rewrite Hkeys. repeat constructor; simpl; intros H;
      repeat (destruct H as [H|H]; [discriminate|]); exact H. }
  destruct (existsb (fun '(_, s) => negb (s =? 0)) scores) eqn:Ex.
  - apply existsb_exists in Ex as ([ct0 s0] & Hin0 & Hs0).
    apply negb_true_iff, Z.eqb_neq in Hs0.
    destruct scores as [|first rest]; [discriminate|].
    destruct (argmax_spec rest first) as (pre & p & post & Heq & Hf & Hpre & Hpost).
    assert (Hp : ~ In (fst p) (map fst pre)).
    { rewrite Heq, map_app in Hnd. simpl in Hnd.
      apply NoDup_remove_2 in Hnd. intros H. apply Hnd, in_or_app. left. exact H. }
    rewrite Heq in Hnn, Hin0. rewrite <- Hf, Heq. destruct p as [ct s]. simpl in *.
    rewrite lookup_first by exact Hp.
    apply Forall_app in Hnn as [Hnn1 Hnn2].
    inversion Hnn2 as [|? ? Hps Hnn3]; subst. simpl in Hps.
    assert (Hpos : 0 < s).
    { apply in_app_or in Hin0 as [Hin0|[Hin0|Hin0]].
      - rewrite Forall_forall in Hpre, Hnn1. specialize (Hpre _ Hin0). specialize (Hnn1 _ Hin0).
        simpl in *. lia.
      - injection Hin0 as <- <-. lia.
      - rewrite Forall_forall in Hpost, Hnn3. specialize (Hpost _ Hin0). specialize (Hnn3 _ Hin0).
        simpl in *. lia. }
    split.
    + split; [discriminate|]. intros Hz. rewrite Forall_forall in Hz.
      specialize (Hz (Classifier.argmax first rest, s)). simpl in Hz. rewrite Hz in Hpos; [lia|].
      apply in_or_app. right. left. reflexivity.
    + intros a Ha. injection Ha as <-. simpl. split; [reflexivity|]. split; [exact Hpos|].
      exists pre, post. split; [reflexivity|]. split.
      * rewrite Forall_forall in Hpre, Hnn1 |- *. intros q Hq. split; auto.
      * rewrite Forall_forall in Hpost, Hnn3 |- *. intros q Hq. split; auto.
  - assert (Hg : ~ In Classifier.general (map fst scores))
      by (rewrite Hkeys; simpl; intros H; repeat (destruct H as [H|H]; [discriminate|]); exact H).
    rewrite lookup_absent by exact Hg.
    split; [|discriminate].
    split; [intros _|reflexivity].
    apply Forall_forall. intros [ct s] Hin.
    destruct (Z.eqb_spec s 0) as [E|E]; [exact E|].
    assert (existsb (fun '(_, s) => negb (s =? 0)) scores = true); [|congruence].
    apply existsb_exists. exists (ct, s). split; [exact Hin|].
    apply negb_true_iff, Z.eqb_neq, E.
Qed.

(** ** From the extracted operations to the animator *)

Section Dispatch.
Import Extract Animation.

Lemma any_type_app p l1 l2 : any_type p (l1 ++ l2) = any_type p l1 || any_type p l2.
Proof. unfold any_type. apply existsb_app. Qed.

Lemma choose_app l1 l2 a : choose l1 = a -> choose l2 = a -> choose (l1 ++ l2) = a.
Proof.
  unfold choose. rewrite !any_type_app. intros H1 H2.
  destruct (any_type "stack" l1), (any_type "stack" l2); simpl in *; try congruence;
  destruct (any_type "queue" l1), (any_type "queue" l2); simpl in *; try congruence;
  destruct (any_type "array" l1), (any_type "array" l2); simpl in *; try congruence;
  destruct (any_type "tree" l1), (any_type "tree" l2); simpl in *; try congruence;
  destruct (any_type "list" l1), (any_type "list" l2); simpl in *; try congruence;
  destruct (any_type "graph" l1), (any_type "graph" l2); simpl in *; try congruence;
  destruct (any_type "hash" l1), (any_type "hash" l2); simpl in *; congruence.
Qed.

Lemma choose_forall l a :
  l <> [] -> Forall (fun op => choose [op] = a) l -> choose l = a.
Proof.
  induction l as [|op l IH]; intros Hne Hf; [congruence|].
  apply Forall_cons_iff in Hf as [Hop Hl].
  destruct l as [|op' l']; [exact Hop|].
  change (op :: op' :: l') with ([op] ++ op' :: l').
  apply choose_app; [exact Hop|]. apply IH; [discriminate | exact Hl].
Qed.

Lemma choose_not_general l : l <> [] -> choose l <> general_animation.
Proof.
  destruct l as [|op l]; [congruence|]. intros _.
  change (op :: l) with ([op] ++ l). unfold choose. rewrite !any_type_app.
  destruct op; simpl;
    repeat match goal with |- context [if any_type ?p l then _ else _] =>
             destruct (any_type p l) end; discriminate.
Qed.

Lemma Forall_flat_map_intro {A B} (P : B -> Prop) (f : A -> list B) l :
  (forall x, Forall P (f x)) -> Forall P (flat_map f l).
Proof. intros H. induction l as [|x l IH]; simpl; [constructor|]. apply Forall_app. auto. Qed.

Lemma Forall_map_intro {A B} (P : B -> Prop) (f : A -> B) l :
  (forall x, P (f x)) -> Forall P (map f l).
Proof. intros H. induction l as [|x l IH]; simpl; constructor; auto. Qed.

Lemma Forall_default {A} (P : A -> Prop) (ops d : list A) :
  Forall P ops -> Forall P d -> Forall P (match ops with [] => d | _ :: _ => ops end).
Proof. destruct ops; auto. Qed.

Lemma valued_forall (P : operation -> Prop) mk ps text :
  (forall v, P (mk v)) -> Forall P (valued mk ps text).
Proof.
  intros H. unfold valued. apply Forall_flat_map_intro. intros vs.
  apply Forall_flat_map_intro. intros v.
  destruct (nonempty (clean v)); [constructor; [apply H | constructor] | constructor].
Qed.

Lemma counted_forall (P : operation -> Prop) o ps text :
  P o -> Forall P (counted o ps text).
Proof.
  intros H. unfold counted. apply Forall_flat_map_intro. intros ms.
  apply Forall_map_intro. intros _. exact H.
Qed.

Lemma with_middle_forall (P : operation -> Prop) push pop i vs :
  P pop -> (forall v, P (push v)) -> Forall P (with_middle push pop i vs).
Proof.
  intros Hp Hv. revert i. induction vs as [|v vs IH]; intros i; simpl; [constructor|].
  constructor; [apply Hv|]. apply Forall_app. split; [|apply IH].
  destruct (i =? 2)%nat; [constructor; [exact Hp | constructor] | constructor].
Qed.

Lemma primary_forall text :
  Forall (fun op => choose [op] = Invariants.kind_animator (infer_kind (Str.lower text)))
         (primary text).
Proof.
  unfold primary. destruct (infer_kind (Str.lower text)); simpl;
    unfold stack_branch, queue_branch, tree_branch, tree_seed, list_branch,
      graph_branch, hash_branch, array_branch; cbv zeta;
    repeat first
      [ apply Forall_app; split
      | apply Forall_default
      | apply valued_forall; intros; reflexivity
      | apply counted_forall; reflexivity
      | apply Forall_flat_map_intro; intros
      | apply Forall_map_intro; intros; reflexivity
      | apply Forall_cons; [reflexivity|]
      | apply Forall_nil
      | match goal with |- Forall _ (let _ := _ in _) => cbv zeta end
      | match goal with |- Forall _ (if ?b then _ else _) => destruct b end ].
Qed.

Lemma fallback_forall text :
  Forall (fun op => choose [op] = animate_stack \/ choose [op] = animate_queue)
         (match numbered_fallback text with [] => value_fallback text | ops => ops end).
Proof.
  destruct (numbered_fallback text) as [|o l] eqn:E.
  2:{ rewrite <- E. unfold numbered_fallback. apply Forall_flat_map_intro. intros op_text.
    unfold numbered_op. cbv zeta.
    repeat match goal with
           | |- Forall _ (if ?b then _ else _) => destruct b
           | |- Forall _ (match ?m with Some _ => _ | None => _ end) => destruct m
           end;
      repeat (apply Forall_cons; [first [left; reflexivity | right; reflexivity]|]);
      apply Forall_nil. }
  - unfold value_fallback. cbv zeta.
    repeat match goal with
           | |- Forall _ (if ?b then _ else _) => destruct b
           end;
      repeat first
        [ apply Forall_app; split
        | apply with_middle_forall; [|intros]; first [left; reflexivity | right; reflexivity]
        | apply Forall_map_intro; intros; left; reflexivity
        | apply Forall_cons; [first [left; reflexivity | right; reflexivity]|]
        | apply Forall_nil ].
Qed.

End Dispatch.

Section ExtractEmpty.
Import Extract.

Lemma default_nonempty {A} (ops d : list A) :
  d <> [] -> match ops with [] => d | _ :: _ => ops end <> [].
Proof. destruct ops; [auto | discriminate]. Qed.

Lemma with_middle_nonempty (push : string -> operation) pop i vs :
  vs <> [] -> with_middle push pop i vs <> [].
Proof. destruct vs; simpl; [congruence | discriminate]. Qed.

Lemma value_fallback_nil text :
  value_fallback text = [] <->
  (List.length (unique_values text) < 2)%nat /\
  Str.contains "stack" (Str.lower text) = false /\
  Str.contains "queue" (Str.lower text) = false /\
  any_in ["push"; "pop"; "lifo"; "enqueue"; "dequeue"; "fifo";
          "data structure"; "insert"; "delete"] (Str.lower text) = false.
Proof.
  unfold value_fallback. cbv zeta.
  set (uv := unique_values text). set (tl := Str.lower text).
  assert (Hany : any_in ["push"; "pop"; "lifo"; "enqueue"; "dequeue"; "fifo";
                         "data structure"; "insert"; "delete"] tl
                 = any_in ["push"; "pop"; "lifo"] tl
                   || any_in ["enqueue"; "dequeue"; "fifo"] tl
                   || any_in ["data structure"; "push"; "pop"; "insert"; "delete"] tl).
  { unfold any_in. simpl.
    destruct (Str.contains "push" tl), (Str.contains "pop" tl), (Str.contains "lifo" tl),
      (Str.contains "enqueue" tl), (Str.contains "dequeue" tl), (Str.contains "fifo" tl),
      (Str.contains "data structure" tl), (Str.contains "insert" tl),
      (Str.contains "delete" tl); reflexivity. }
  rewrite Hany. clearbody tl.
  destruct (2 <=? List.length uv)%nat eqn:E2.
  - apply Nat.leb_le in E2.
    assert (Hf : firstn 4 uv <> []).
    { destruct uv as [|x uv']; simpl in E2; [lia|]. discriminate. }
    split; [|intros (H & _); lia]. intros H. exfalso. revert H.
    destruct (Str.contains "stack" tl || any_in ["push"; "pop"; "lifo"] tl).
    + destruct (1 <? List.length (with_middle stack_push stack_pop 0 (firstn 4 uv)))%nat.
      * destruct (with_middle stack_push stack_pop 0 (firstn 4 uv)); discriminate.
      * apply with_middle_nonempty, Hf.
    + destruct (Str.contains "queue" tl || any_in ["enqueue"; "dequeue"; "fifo"] tl).
      * destruct (1 <? List.length (with_middle queue_enqueue queue_dequeue 0 (firstn 4 uv)))%nat.
        -- destruct (with_middle queue_enqueue queue_dequeue 0 (firstn 4 uv)); discriminate.
        -- apply with_middle_nonempty, Hf.
      * destruct (firstn 3 uv); discriminate.
  - apply Nat.leb_gt in E2.
    destruct (Str.contains "stack" tl), (any_in ["push"; "pop"; "lifo"] tl),
      (Str.contains "queue" tl), (any_in ["enqueue"; "dequeue"; "fifo"] tl),
      (any_in ["data structure"; "push"; "pop"; "insert"; "delete"] tl);
      simpl; split; try discriminate; try (intros (_ & H1 & H2 & H3); discriminate);
      intros _; auto.
Qed.

End ExtractEmpty.

Section ExtractKinds.
Import Extract.

Lemma infer_kind_stack tl : infer_kind tl = KStack -> Str.contains "stack" tl = true.
Proof.
  unfold infer_kind. destruct (Str.contains "stack" tl); [reflexivity|].
  repeat match goal with |- context [if ?b then _ else _] => destruct b end; discriminate.
Qed.

Lemma infer_kind_queue tl : infer_kind tl = KQueue -> Str.contains "queue" tl = true.
Proof.
  unfold infer_kind. destruct (Str.contains "stack" tl); [discriminate|].
  destruct (Str.contains "queue" tl); [reflexivity|].
  repeat match goal with |- context [if ?b then _ else _] => destruct b end; discriminate.
Qed.

Lemma infer_kind_none tl :
  infer_kind tl = KNone -> Str.contains "stack" tl = false /\ Str.contains "queue" tl = false.
Proof.
  unfold infer_kind. destruct (Str.contains "stack" tl); [discriminate|].
  destruct (Str.contains "queue" tl); [discriminate|]. auto.
Qed.

Lemma primary_nil_kind text :
  primary text = [] -> Str.contains "stack" (Str.lower text) = false ->
  Str.contains "queue" (Str.lower text) = false ->
  infer_kind (Str.lower text) = KNone.
Proof.
  intros Ep Hs Hq. unfold primary in Ep. cbv zeta in Ep.
  destruct (infer_kind (Str.lower text)) eqn:Ek; try reflexivity; exfalso.
  - apply infer_kind_stack in Ek. congruence.
  - apply infer_kind_queue in Ek. congruence.
  - unfold tree_branch in Ep. cbv zeta in Ep. revert Ep. apply default_nonempty.
    unfold tree_seed. destruct (any_in _ _); discriminate.
  - unfold list_branch in Ep. cbv zeta in Ep. revert Ep. apply default_nonempty. discriminate.
  - unfold graph_branch in Ep. cbv zeta in Ep. revert Ep. apply default_nonempty. discriminate.
  - unfold hash_branch in Ep. cbv zeta in Ep. revert Ep. apply default_nonempty. discriminate.
  - unfold array_branch in Ep. cbv zeta in Ep. revert Ep. apply default_nonempty. discriminate.
Qed.

End ExtractKinds.

(** X12.  The operations returned by [_extract_data_structure_operations]
    reach the general slide animation exactly when there are none.  When
    the keyword branch of the extractor yields operations, they are
    returned as they are, [_create_data_structure_animation] picks the
    animator of that branch, and each operation alone would be sent to the
    same animator.  Otherwise every operation, from the numbered-list or
    the value fallback, is a stack or a queue operation. *)
Theorem extracted_ops_dispatch :
  forall text,
    let ops := Extract.extract_data_structure_operations text in
    (Animation.choose ops = Animation.general_animation <-> ops = []) /\
    (Extract.primary text <> [] ->
       ops = Extract.primary text /\
       Animation.choose ops = Invariants.kind_animator (Extract.infer_kind (Str.lower text)) /\
       Forall (fun op => Animation.choose [op] = Animation.choose ops) ops) /\
    (Extract.primary text = [] ->
       Forall (fun op => Animation.choose [op] = Animation.animate_stack \/
                         Animation.choose [op] = Animation.animate_queue) ops).
Proof.
  intros text ops. split; [|split].
  - split; [|intros ->; reflexivity].
    intros H. destruct ops as [|op l] eqn:E; [reflexivity|].
    exfalso. revert H. apply choose_not_general. discriminate.
  - intros Hne. subst ops. unfold Extract.extract_data_structure_operations.
    pose proof (primary_forall text) as Hf.
    destruct (Extract.primary text) as [|o l] eqn:Ep; [congruence|].
    assert (Hc : Animation.choose (o :: l)
                 = Invariants.kind_animator (Extract.infer_kind (Str.lower text)))
      by (apply choose_forall; [discriminate | exact Hf]).
    split; [reflexivity|]. split; [exact Hc|]. rewrite Hc. exact Hf.
  - intros Hnil. subst ops. unfold Extract.extract_data_structure_operations.
    rewrite Hnil. apply fallback_forall.
Qed.

(** X13.  [_extract_data_structure_operations] returns no operation
    exactly when the lowered text triggers none of its keyword branches,
    the numbered-list fallback finds nothing, fewer than two distinct
    values (numbers or capital letters) occur, and the lowered text
    contains none of the words push, pop, lifo, enqueue, dequeue, fifo,
    data structure, insert and delete. *)
Theorem extract_empty_iff :
  forall text,
    Extract.extract_data_structure_operations text = [] <->
    Extract.infer_kind (Str.lower text) = Extract.KNone /\
    Extract.numbered_fallback text = [] /\
    (List.length (Extract.unique_values text) < 2)%nat /\
    Extract.any_in ["push"; "pop"; "lifo"; "enqueue"; "dequeue"; "fifo";
                    "data structure"; "insert"; "delete"] (Str.lower text) = false.
Proof.
  intros text. unfold Extract.extract_data_structure_operations. split.
  - intros H. destruct (Extract.primary text) eqn:Ep; [|discriminate].
    destruct (Extract.numbered_fallback text) eqn:En; [|discriminate].
    apply value_fallback_nil in H as (Hl & Hs & Hq & Ha).
    split; [apply primary_nil_kind; assumption|]. auto.
  - intros (Hk & Hn & Hl & Ha).
    destruct (infer_kind_none _ Hk) as [Hs Hq].
    assert (Ep : Extract.primary text = []) by (unfold Extract.primary; rewrite Hk; reflexivity).
    rewrite Ep, Hn. apply value_fallback_nil. auto.
Qed.

(** ** Frame counts *)

Section Frames.




End Frames.


(** ** Slides and sort steps *)

Section Slides.
Import Extract.

Lemma rev_str_list s acc :
  list_ascii_of_string (rev_str s acc) = rev (list_ascii_of_string s) ++ list_ascii_of_string acc.
Proof.
  revert acc. induction s as [|c s IH]; intros acc; simpl; [reflexivity|].
  rewrite IH. simpl. rewrite <- app_assoc. reflexivity.
Qed.

Lemma lstrip_head p s c r :
  list_ascii_of_string (lstrip p s) = c :: r -> p c = false.
Proof.
  induction s as [|c' s IH]; simpl; [discriminate|].
  destruct (p c') eqn:E; [exact IH|]. simpl. intros H. injection H as -> _. exact E.
Qed.

Lemma lstrip_suffix p s :
  exists pre, list_ascii_of_string s = pre ++ list_ascii_of_string (lstrip p s).
Proof.
  induction s as [|c s IH]; simpl; [exists []; reflexivity|].
  destruct (p c).
  - destruct IH as [pre H]. exists (c :: pre). rewrite H. reflexivity.
  - exists []. reflexivity.
Qed.

Lemma strip_incl p s c :
  In c (list_ascii_of_string (strip p s)) -> In c (list_ascii_of_string s).
Proof.
  unfold strip. rewrite rev_str_list. simpl. rewrite app_nil_r, <- in_rev.
  destruct (lstrip_suffix p (rev_str (lstrip p s) EmptyString)) as [pre1 H1].
  destruct (lstrip_suffix p s) as [pre2 H2].
  rewrite rev_str_list in H1. simpl in H1. rewrite app_nil_r in H1.
  intros Hc. rewrite H2. apply in_or_app. right. apply in_rev. rewrite H1.
  apply in_or_app. right. exact Hc.
Qed.

Lemma strip_last p s c :
  hd_error (rev (list_ascii_of_string (strip p s))) = Some c -> p c = false.
Proof.
  unfold strip. rewrite rev_str_list. simpl. rewrite app_nil_r, rev_involutive.
  destruct (list_ascii_of_string (lstrip p (rev_str (lstrip p s) EmptyString))) as [|c' r] eqn:E;
    simpl; [discriminate|].
  intros H. injection H as ->. apply (lstrip_head _ _ _ _ E).
Qed.

Lemma strip_first p s c :
  hd_error (list_ascii_of_string (strip p s)) = Some c -> p c = false.
Proof.
  unfold strip. rewrite rev_str_list. simpl. rewrite app_nil_r.
  destruct (lstrip_suffix p (rev_str (lstrip p s) EmptyString)) as [pre H].
  rewrite rev_str_list in H. simpl in H. rewrite app_nil_r in H.
  apply (f_equal (@rev ascii)) in H. rewrite rev_involutive, rev_app_distr in H.
  destruct (rev (list_ascii_of_string (lstrip p (rev_str (lstrip p s) EmptyString))))
    as [|c' r]; simpl; [discriminate|].
  intros Hc. injection Hc as ->. apply (lstrip_head p s c (r ++ rev pre)). exact H.
Qed.

Lemma split_no_sep sep s :
  Forall (fun w => ~ In sep (list_ascii_of_string w)) (Elements.split sep s).
Proof.
  induction s as [|c s IH]; simpl.
  - constructor; [simpl; tauto | constructor].
  - destruct (Ascii.eqb c sep) eqn:E.
    + constructor; [simpl; tauto | exact IH].
    + apply Ascii.eqb_neq in E.
      destruct (Elements.split sep s) as [|w ws]; constructor.
      * simpl. intros [H|[]]. congruence.
      * constructor.
      * simpl. apply Forall_cons_iff in IH as [Hw _]. intros [H|H]; [congruence | exact (Hw H)].
      * apply Forall_cons_iff in IH as [_ Hws]. exact Hws.
Qed.

Lemma split_length sep s :
  List.length (Elements.split sep s) = S (count_occ Ascii.ascii_dec (list_ascii_of_string s) sep).
Proof.
  induction s as [|c s IH]; simpl; [reflexivity|].
  destruct (Ascii.eqb c sep) eqn:E.
  - apply Ascii.eqb_eq in E. subst. simpl. rewrite IH.
    destruct (Ascii.ascii_dec sep sep); [reflexivity | congruence].
  - apply Ascii.eqb_neq in E.
    destruct (Ascii.ascii_dec c sep); [congruence|].
    destruct (Elements.split sep s) as [|w ws]; simpl in *; [discriminate | exact IH].
Qed.

End Slides.

(** X15.  Every slide that [_extract_general_concepts] makes from a text
    is non-empty, contains no period, and neither starts nor ends with a
    whitespace character. *)
Theorem general_concepts_slides :
  forall text,
    Forall (fun w =>
              w <> EmptyString /\
              ~ In "."%char (list_ascii_of_string w) /\
              (forall c, hd_error (list_ascii_of_string w) = Some c -> Re.is_space c = false) /\
              (forall c, hd_error (rev (list_ascii_of_string w)) = Some c ->
                         Re.is_space c = false))
           (Elements.general_concepts text).
Proof.
  intros text. unfold Elements.general_concepts.
  pose proof (split_no_sep "."%char text) as Hs.
  apply Forall_forall. intros w Hw.
  apply in_map_iff in Hw as (s & <- & Hin).
  apply filter_In in Hin as [Hin Hne].
  rewrite Forall_forall in Hs. specialize (Hs s Hin).
  split; [|split; [|split]].
  - intros E. rewrite E in Hne. discriminate.
  - intros Hd. apply Hs. apply (strip_incl _ _ _ Hd).
  - apply strip_first.
  - apply strip_last.
Qed.

(** X16.  With a sorting keyword in the text, [_extract_algorithm_steps]
    makes one step per comma-separated field of the first bracketed list
    (one more than its number of commas), or 7 steps for the default array
    when there is no such list; without a keyword it makes none.  Every
    step's index is a valid position in the array it carries. *)
Theorem algorithm_steps_shape :
  forall text,
    List.length (Elements.algorithm_steps text) =
    (if Extract.any_in ["sort"; "bubble"; "merge"; "quick"] (Str.lower text) then
       match Extract.findall1 Elements.bracket_pattern text Extract.NOFLAGS with
       | a :: _ => S (count_occ Ascii.ascii_dec (list_ascii_of_string a) ","%char)
       | [] => 7
       end
     else 0)%nat /\
    Forall (fun step => (snd step < List.length (fst step))%nat) (Elements.algorithm_steps text).
Proof.
  intros text. unfold Elements.algorithm_steps.
  destruct (Extract.any_in _ _); [|split; [reflexivity | constructor]].
  destruct (Extract.findall1 Elements.bracket_pattern text Extract.NOFLAGS) as [|a rest].
  - rewrite length_map, length_seq. split; [reflexivity|].
    apply Forall_forall. intros [arr i] Hin. apply in_map_iff in Hin as (j & Hj & Hin).
    injection Hj as <- <-. apply in_seq in Hin. simpl in *. lia.
  - rewrite length_map, length_seq, length_map, split_length. split; [reflexivity|].
    apply Forall_forall. intros [arr i] Hin. apply in_map_iff in Hin as (j & Hj & Hin).
    injection Hj as <- <-. apply in_seq in Hin. simpl. rewrite length_map, split_length. lia.
Qed.


(** ** The bubble sort of the algorithm animation *)

Section SortFacts.
Import Sorting.


















End SortFacts.

Section SortResult.
Import Sorting.


End SortResult.

